(** * yocache: codecs, the concurrent cache, the HTTP pool and single-flight

    A shallow embedding of the Go package [yocache] (codec.go, cache.go,
    http.go, peers.go) together with the properties of its specification.

    Go strings are byte strings and are modelled by [string]; byte slices
    are [list byte]; a Go [(value, error)] pair is a [result]; a function
    that may panic returns an [outcome].  Mutex-protected methods are
    modelled as atomic state transformers. *)

From Stdlib Require Import ZArith NArith List Ascii String Bool Lia DecimalString.
From Stdlib.Strings Require Import Byte.
From stdpp Require Import base list strings gmap.

Local Open Scope Z_scope.

#[local] Arguments String.append !_ _ / : simpl nomatch.

(** ** Errors, results and panics *)

(** Go [error] values that the modelled code produces or passes along. *)
Inductive error : Type :=
| EOF                                  (* io.EOF *)
| ErrUnexpectedEOF                     (* io.ErrUnexpectedEOF *)
| ErrHeader                            (* gzip.ErrHeader *)
| ErrChecksum                          (* gzip.ErrChecksum *)
| CorruptInputError (offset : Z)       (* flate.CorruptInputError *)
| ErrNotModelled                       (* input outside the gzip model below *)
| errorString (msg : string).          (* errors.New / fmt.Errorf *)

Inductive result (A : Type) : Type :=
| Ok (a : A)
| Err (e : error).
Arguments Ok {A} a.
Arguments Err {A} e.

Inductive outcome (A : Type) : Type :=
| Returns (a : A)
| Panics (msg : string).
Arguments Returns {A} a.
Arguments Panics {A} msg.

(** The message of the run-time panic on a nil pointer or nil interface. *)
Definition nil_dereference : string :=
  "runtime error: invalid memory address or nil pointer dereference".

(** ** Bytes *)

Definition Z_of_byte (b : byte) : Z := Z.of_N (Byte.to_N b).

Definition byte_of_Z (z : Z) : byte :=
  match Byte.of_N (Z.to_N (z mod 256)) with
  | Some b => b
  | None => x00
  end.

(** [le.PutUint16] and [le.PutUint32] of encoding/binary. *)
Definition PutUint16 (v : Z) : list byte :=
  [byte_of_Z v; byte_of_Z (Z.shiftr v 8)].

Definition PutUint32 (v : Z) : list byte :=
  [byte_of_Z v; byte_of_Z (Z.shiftr v 8);
   byte_of_Z (Z.shiftr v 16); byte_of_Z (Z.shiftr v 24)].

Definition Uint16 (b0 b1 : byte) : Z :=
  Z.lor (Z_of_byte b0) (Z.shiftl (Z_of_byte b1) 8).

Definition Uint32 (b0 b1 b2 b3 : byte) : Z :=
  Z.lor (Z.lor (Z_of_byte b0) (Z.shiftl (Z_of_byte b1) 8))
        (Z.lor (Z.shiftl (Z_of_byte b2) 16) (Z.shiftl (Z_of_byte b3) 24)).

(** A value that fits 32 bits. *)
Definition u32 (x : Z) : Prop := 0 <= x < 2 ^ 32.

(** ** ByteView *)

Record ByteView : Type := mkByteView { b : list byte }.

(** Modelled from the spec: byteview.go is not among the sources.
    [ByteSlice] "returns a fresh copy" of the viewed bytes and [Len] is
    their number; a copy has the content of the original. *)
Definition ByteSlice (v : ByteView) : list byte := b v.

Definition Len (v : ByteView) : Z := Z.of_nat (length (b v)).

(** The zero value [ByteView{}]: a nil slice. *)
Definition ByteView_zero : ByteView := mkByteView [].

(** ** hash/crc32, IEEE polynomial (simpleMakeTable / simpleUpdate) *)

Module crc32.

Definition IEEE : Z := 0xedb88320.

Definition table_step (crc : Z) : Z :=
  if Z.testbit crc 0 then Z.lxor (Z.shiftr crc 1) IEEE else Z.shiftr crc 1.

Definition table_entry (i : Z) : Z :=
  Nat.iter 8 table_step i.

Definition not32 (crc : Z) : Z := Z.lxor crc 0xffffffff.

Definition update_byte (crc : Z) (v : byte) : Z :=
  Z.lxor (table_entry (Z.land (Z.lxor crc (Z_of_byte v)) 0xff)) (Z.shiftr crc 8).

Definition Update (crc : Z) (p : list byte) : Z :=
  not32 (fold_left update_byte p (not32 crc)).

Definition ChecksumIEEE (p : list byte) : Z := Update 0 p.

End crc32.

(** ** compress/flate and compress/gzip

    The Go standard library is not part of the repository.  Its gzip writer
    and reader are modelled at the level the codec depends on: the framing
    of RFC 1952 (member header, DEFLATE blocks, CRC-32 and size trailer) and
    of RFC 1951 (block header with the BFINAL bit, stored blocks, the empty
    stored block that [Flush] emits as a sync marker, the final block that
    only [Close] emits).  The entropy coder is taken at its store level
    ([flate.NoCompression]): the blocks carry the data uncompressed.  The
    reader accepts what this writer emits; optional header fields and
    Huffman-coded blocks are reported as [ErrNotModelled]. *)

Module flate.

Definition maxStoreBlockSize : N := 65535.

(** [huffmanBitWriter.writeStoredHeader] on a byte-aligned stream. *)
Definition writeStoredHeader (w : list byte) (length : N) (isEof : bool)
  : list byte :=
  w ++ [if isEof then x01 else x00]
    ++ PutUint16 (Z.of_N length)
    ++ PutUint16 (Z.lxor (Z.of_N length) 0xffff).

(** The compressor's pending input, [d.window[:d.windowEnd]]. *)
Record compressor : Type := mkCompressor { window : list byte }.

Definition windowEnd (d : compressor) : N := N.of_nat (length (window d)).

Definition writeStoredBlock (w : list byte) (buf : list byte) : list byte :=
  writeStoredHeader w (N.of_nat (length buf)) false ++ buf.

(** [compressor.store], the step function of the store level; [sync] is
    [d.sync] and [w] the underlying writer. *)
Definition store (sync : bool) (w : list byte) (d : compressor)
  : list byte * compressor :=
  if (0 <? windowEnd d)%N && ((windowEnd d =? maxStoreBlockSize)%N || sync)
  then (writeStoredBlock w (window d), mkCompressor [])
  else (w, d).

(** [compressor.fillStore]: copy as much of [b] as the window takes;
    returns the bytes of [b] that are left. *)
Definition fillStore (d : compressor) (b : list byte)
  : compressor * list byte :=
  let n := N.to_nat (N.min (N.of_nat (length b)) (maxStoreBlockSize - windowEnd d)) in
  (mkCompressor (window d ++ take n b), drop n b).

(** [compressor.write]: [for len(b) > 0 { d.step(d); b = b[d.fill(d, b):] }]. *)
Fixpoint write_loop (fuel : nat) (w : list byte) (d : compressor)
         (b : list byte) : list byte * compressor :=
  match b, fuel with
  | [], _ => (w, d)
  | _, O => (w, d)
  | _, S fuel' =>
      let '(w1, d1) := store false w d in
      let '(d2, b') := fillStore d1 b in
      write_loop fuel' w1 d2 b'
  end.

Definition write (w : list byte) (d : compressor) (b : list byte)
  : list byte * compressor :=
  write_loop (length b) w d b.

(** [compressor.syncFlush]: emit what is pending, then an empty stored
    block. *)
Definition syncFlush (w : list byte) (d : compressor)
  : list byte * compressor :=
  let '(w1, d1) := store true w d in
  (writeStoredHeader w1 0 false, d1).

(** [compressor.close]: emit what is pending, then the final block. *)
Definition close (w : list byte) (d : compressor)
  : list byte * compressor :=
  let '(w1, d1) := store true w d in
  (writeStoredHeader w1 0 true, d1).

(** The decompressor: [nextBlock] and [dataBlock] until the final block
    is finished.  [r] is the unread input, [roffset] the number of bytes
    read so far and [out] the data produced.  [None] is fuel exhaustion,
    which does not occur with more fuel than input ([inflate_fuel]). *)
Fixpoint inflate (fuel : nat) (r : list byte) (roffset : Z) (out : list byte)
  : option (result (list byte * list byte)) :=
  match fuel with
  | O => None
  | S fuel' =>
      match r with
      | [] => Some (Err ErrUnexpectedEOF)
      | hdr :: r1 =>
          let final := Z.testbit (Z_of_byte hdr) 0 in
          let typ := Z.land (Z.shiftr (Z_of_byte hdr) 1) 3 in
          if typ =? 0 then
            match r1 with
            | l0 :: l1 :: n0 :: n1 :: r2 =>
                let n := Uint16 l0 l1 in
                let nn := Uint16 n0 n1 in
                if negb (nn =? Z.lxor n 0xffff)
                then Some (Err (CorruptInputError (roffset + 5)))
                else if Z.of_nat (length r2) <? n
                then Some (Err ErrUnexpectedEOF)
                else
                  let out' := out ++ take (Z.to_nat n) r2 in
                  let r3 := drop (Z.to_nat n) r2 in
                  if final then Some (Ok (out', r3))
                  else inflate fuel' r3 (roffset + 5 + n) out'
            | _ => Some (Err ErrUnexpectedEOF)
            end
          else if typ =? 3 then Some (Err (CorruptInputError (roffset + 1)))
          else Some (Err ErrNotModelled)
      end
  end.

(** The five bytes of a stored block's header. *)
Definition stored_header (n : N) (final : bool) : list byte :=
  writeStoredHeader [] n final.

(** [stored_blocks data enc n]: [enc] is a sequence of [n] non-final
    stored blocks that carry [data]. *)
Inductive stored_blocks : list byte -> list byte -> nat -> Prop :=
| blocks_nil : stored_blocks [] [] 0
| blocks_cons blk data enc n :
    (N.of_nat (length blk) <= maxStoreBlockSize)%N ->
    stored_blocks data enc n ->
    stored_blocks (blk ++ data)
                  (stored_header (N.of_nat (length blk)) false ++ blk ++ enc) (S n).

(** What the compressor has emitted and what it still holds. *)
Definition emits (w : list byte) (d : compressor) (input : list byte)
           (w' : list byte) (d' : compressor) : Prop :=
  exists data enc n,
    w' = w ++ enc /\ stored_blocks data enc n /\
    data ++ window d' = window d ++ input /\
    (windowEnd d' <= maxStoreBlockSize)%N.

End flate.

Module gzip.

(** The ten header bytes [Writer.Write] emits for a zero [Header]:
    ID1, ID2, CM = deflate, FLG = 0, MTIME = 0, XFL = 0, OS = unknown. *)
Definition header : list byte :=
  [x1f; x8b; x08; x00; x00; x00; x00; x00; x00; xff].

(** [gzip.Writer]; [w] is the underlying writer, here the codec's
    [bytes.Buffer], whose writes cannot fail. *)
Record Writer : Type := mkWriter {
  w : list byte;
  wroteHeader : bool;
  closed : bool;
  digest : Z;
  size : Z;
  compressor : flate.compressor;
  err : option error
}.

Definition NewWriter (w : list byte) : Writer :=
  mkWriter w false false 0 0 (flate.mkCompressor []) None.

Definition Write (z : Writer) (p : list byte) : Writer * option error :=
  match err z with
  | Some e => (z, Some e)
  | None =>
      let w1 := if wroteHeader z then w z else w z ++ header in
      let '(w2, d2) := flate.write w1 (compressor z) p in
      (mkWriter w2 true (closed z)
                (crc32.Update (digest z) p)
                ((size z + Z.of_nat (length p)) mod 2 ^ 32)
                d2 None, None)
  end.

Definition Flush (z : Writer) : Writer * option error :=
  match err z with
  | Some e => (z, Some e)
  | None =>
      if closed z then (z, None)
      else
        let z1 := if wroteHeader z then z else fst (Write z []) in
        let '(w2, d2) := flate.syncFlush (w z1) (compressor z1) in
        (mkWriter w2 true false (digest z1) (size z1) d2 None, None)
  end.

Definition Close (z : Writer) : Writer * option error :=
  match err z with
  | Some e => (z, Some e)
  | None =>
      if closed z then (z, None)
      else
        let z1 := if wroteHeader z then z else fst (Write z []) in
        let '(w2, d2) := flate.close (w z1) (compressor z1) in
        (mkWriter (w2 ++ PutUint32 (digest z1) ++ PutUint32 (size z1))
                  true true (digest z1) (size z1) d2 None, None)
  end.

(** [Reader.readHeader]: the rest of the input after a member header. *)
Definition readHeader (r : list byte) : result (list byte) :=
  match r with
  | [] => Err EOF
  | id1 :: id2 :: cm :: flg :: _ :: _ :: _ :: _ :: _ :: _ :: rest =>
      if negb ((Z_of_byte id1 =? 0x1f) && (Z_of_byte id2 =? 0x8b)
               && (Z_of_byte cm =? 8))
      then Err ErrHeader
      else if negb (Z_of_byte flg =? 0) then Err ErrNotModelled
      else Ok rest
  | _ => Err ErrUnexpectedEOF
  end.

(** [gzip.Reader] after its header has been read: the unread input. *)
Record Reader : Type := mkReader { r : list byte }.

Definition NewReader (body : list byte) : result Reader :=
  match readHeader body with
  | Ok rest => Ok (mkReader rest)
  | Err e => Err e
  end.

(** Reading a [Reader] to its end, as [bytes.Buffer.ReadFrom] does: the
    members are inflated in turn, each trailer is checked against the
    CRC-32 and the size of the member's data, and a clean end of input
    after a trailer ends the stream. *)
Fixpoint read_members (fuel : nat) (r : list byte) (acc : list byte)
  : option (result (list byte)) :=
  match fuel with
  | O => None
  | S fuel' =>
      match flate.inflate (S (length r)) r 0 [] with
      | None => None
      | Some (Err e) => Some (Err e)
      | Some (Ok (data, r1)) =>
          match r1 with
          | c0 :: c1 :: c2 :: c3 :: s0 :: s1 :: s2 :: s3 :: r2 =>
              if negb ((Uint32 c0 c1 c2 c3 =? crc32.ChecksumIEEE data)
                       && (Uint32 s0 s1 s2 s3 =? Z.of_nat (length data) mod 2 ^ 32))
              then Some (Err ErrChecksum)
              else
                match readHeader r2 with
                | Err EOF => Some (Ok (acc ++ data))
                | Err e => Some (Err e)
                | Ok r3 => read_members fuel' r3 (acc ++ data)
                end
          | _ => Some (Err ErrUnexpectedEOF)
          end
      end
  end.

Definition ReadAll (z : Reader) : result (list byte) :=
  match read_members (S (length (r z))) (r z) [] with
  | Some res => res
  | None => Err ErrNotModelled
  end.

End gzip.

(** ** codec.go *)

Record Codec : Type := mkCodec {
  Encode : ByteView -> result (list byte);
  Decode : list byte -> result ByteView
}.

Definition RawCodec_Encode (view : ByteView) : result (list byte) :=
  Ok (ByteSlice view).

Definition RawCodec_Decode (body : list byte) : result ByteView :=
  Ok (mkByteView body).

Definition RawDecode (body : list byte) : result ByteView :=
  Ok (mkByteView body).

Definition RawCodec : Codec := mkCodec RawCodec_Encode RawCodec_Decode.

(** [GzipCodec.Encode].  The buffer [b] is shared by the writer and by the
    slice that [b.Bytes()] returns: that slice views the first [len] bytes
    of the buffer's storage, and [len] is fixed when the [return] statement
    evaluates its operands.  The deferred [writer.Close()] runs after that
    evaluation, on every return path. *)
Definition GzipCodec_Encode (view : ByteView) : result (list byte) :=
  let writer := gzip.NewWriter [] in
  match gzip.Write writer (ByteSlice view) with
  | (writer, Some e) =>
      let _ := gzip.Close writer in Err e
  | (writer, None) =>
      match gzip.Flush writer with
      | (writer, Some e) =>
          let _ := gzip.Close writer in Err e
      | (writer, None) =>
          let len := length (gzip.w writer) in
          let '(writer, _) := gzip.Close writer in
          Ok (take len (gzip.w writer))
      end
  end.

Definition GzipCodec_Decode (body : list byte) : result ByteView :=
  match gzip.NewReader body with
  | Err e => Err e
  | Ok reader =>
      match gzip.ReadAll reader with
      | Err e => Err e
      | Ok res => Ok (mkByteView res)
      end
  end.

Definition GzipCodec : Codec := mkCodec GzipCodec_Encode GzipCodec_Decode.

(** [GzipCodec.Encode] with [writer.Close()] run before [b.Bytes()] is
    taken; not in the source, used to state what the deferred call leaves
    out of the returned bytes. *)
Definition GzipCodec_Encode_closed (view : ByteView) : result (list byte) :=
  let writer := gzip.NewWriter [] in
  match gzip.Write writer (ByteSlice view) with
  | (writer, Some e) => Err e
  | (writer, None) =>
      match gzip.Flush writer with
      | (writer, Some e) => Err e
      | (writer, None) =>
          match gzip.Close writer with
          | (writer, Some e) => Err e
          | (writer, None) => Ok (gzip.w writer)
          end
      end
  end.

(** The writer of [GzipCodec.Encode] after [Write] and [Flush]. *)
Definition flushed (v : list byte) : gzip.Writer :=
  fst (gzip.Flush (fst (gzip.Write (gzip.NewWriter []) v))).

(** ** Time

    [time.Time] is modelled by the number of nanoseconds since the zero
    [Time] (so [IsZero] is equality with [0]) and [time.Duration] by its
    [int64] count of nanoseconds.  The clock is read by the caller and
    passed in as [now]. *)

Definition Time : Type := Z.
Definition Duration : Type := Z.

Definition Time_zero : Time := 0.
Definition Time_IsZero (t : Time) : bool := t =? 0.
Definition Time_Add (t : Time) (d : Duration) : Time := t + d.

(** ** The LRU *)

Module lru.

Record entry : Type := mkEntry {
  key : string;
  value : ByteView;
  expire : Time
}.

(** Modelled from the spec: package lru is not among the sources.  The
    cache is "a recency sequence from least- to most-recently-used" of
    entries (key, value, optional expire timestamp), each contributing
    [len(key) + value.Len()] bytes, with a byte budget [maxBytes] where
    "maxBytes = 0 disables capacity eviction" and an optional evict
    callback; [evictions] records the callback's calls. *)
Record Cache : Type := mkCache {
  maxBytes : Z;
  ll : list entry;
  onEvict : bool;
  evictions : list (string * ByteView)
}.

Definition entry_bytes (e : entry) : Z :=
  Z.of_nat (String.length (key e)) + Len (value e).

Definition bytes_of (l : list entry) : Z :=
  foldr (fun e acc => entry_bytes e + acc) 0 l.

Definition Bytes (c : Cache) : Z := bytes_of (ll c).

(** Modelled from the spec: "New(maxBytes, onEvict)"; [onEvict] tells
    whether a callback is given. *)
Definition New (maxBytes : Z) (onEvict : bool) : Cache :=
  mkCache maxBytes [] onEvict [].

Definition has_key (k : string) (e : entry) : bool := String.eqb (key e) k.

Definition lookup (k : string) (l : list entry) : option entry :=
  find (has_key k) l.

Definition without (k : string) (l : list entry) : list entry :=
  List.filter (fun e => negb (has_key k e)) l.

Definition callback (c : Cache) (gone : list entry) : list (string * ByteView) :=
  if onEvict c
  then evictions c ++ map (fun e => (key e, value e)) gone
  else evictions c.

(** Modelled from the spec: "while total bytes > maxBytes (and
    maxBytes > 0), remove the least-recently-used entry"; the entries
    removed and those kept. *)
Fixpoint evict (maxBytes : Z) (l : list entry) : list entry * list entry :=
  match l with
  | [] => ([], [])
  | e :: rest =>
      if (0 <? maxBytes) && (maxBytes <? bytes_of l)
      then let '(gone, kept) := evict maxBytes rest in (e :: gone, kept)
      else ([], l)
  end.

(** Modelled from the spec: "If the key exists, update its value, expire,
    size contribution, and mark it most-recently-used.  Otherwise insert
    a new entry at the most-recently-used end", then evict. *)
Definition Add (c : Cache) (k : string) (v : ByteView) (exp : Time) : Cache :=
  let l := without k (ll c) ++ [mkEntry k v exp] in
  let '(gone, kept) := evict (maxBytes c) l in
  mkCache (maxBytes c) kept (onEvict c) (callback c gone).

(** Modelled from the spec: "[expire] is set and <= now"; set is not the
    zero [Time]. *)
Definition expired (now : Time) (e : entry) : bool :=
  negb (Time_IsZero (expire e)) && (expire e <=? now).

(** Modelled from the spec: "If the entry is absent, return miss.  If
    [expire] is set and <= now, remove the entry (with eviction callback)
    and return miss.  Otherwise mark it most-recently-used and return
    hit." *)
Definition Get (now : Time) (c : Cache) (k : string) : option ByteView * Cache :=
  match lookup k (ll c) with
  | None => (None, c)
  | Some e =>
      if expired now e
      then (None, mkCache (maxBytes c) (without k (ll c)) (onEvict c)
                          (callback c [e]))
      else (Some (value e),
            mkCache (maxBytes c) (without k (ll c) ++ [e]) (onEvict c)
                    (evictions c))
  end.

End lru.

(** ** cache.go *)

(** [cache]; [lru = None] is the nil pointer.  The mutex makes [add] and
    [get] atomic, they are modelled as state transformers. *)
Record cache : Type := mkcache {
  lru : option lru.Cache;
  cacheBytes : Z;
  ttl : Duration
}.

(** The expire timestamp [add] computes; [now] is [time.Now()]. *)
Definition add_expire (c : cache) (now : Time) : Time :=
  if negb (ttl c =? 0) then Time_Add now (ttl c) else Time_zero.

Definition cache_add (now : Time) (c : cache) (key : string) (value : ByteView)
  : cache :=
  let l := match lru c with
           | None => lru.New (cacheBytes c) false
           | Some l => l
           end in
  let expire := add_expire c now in
  mkcache (Some (lru.Add l key value expire)) (cacheBytes c) (ttl c).

Definition cache_get (now : Time) (c : cache) (key : string)
  : (ByteView * bool) * cache :=
  match lru c with
  | None => ((ByteView_zero, false), c)
  | Some l =>
      match lru.Get now l key with
      | (Some v, l') => ((v, true), mkcache (Some l') (cacheBytes c) (ttl c))
      | (None, l') => ((ByteView_zero, false), mkcache (Some l') (cacheBytes c) (ttl c))
      end
  end.

(** ** The consistent-hash ring *)

Module consistenthash.

(** A 32-bit hash function on bytes. *)
Definition Hash : Type := list byte -> Z.

(** Modelled from the spec: package consistenthash is not among the
    sources.  The ring is "a sorted sequence of integer hash points, each
    mapping to a peer identifier string", with "a replica multiplier and
    a 32-bit hash function (default CRC-32/IEEE)". *)
Record Map : Type := mkMap {
  hash : Hash;
  replicas : Z;
  ring : list (Z * string)
}.

(** Modelled from the spec: "New(replicas, hashFn): hashFn defaults to
    CRC-32/IEEE". *)
Definition New (replicas : Z) (fn : option Hash) : Map :=
  mkMap (match fn with Some f => f | None => crc32.ChecksumIEEE end)
        replicas [].

(** Decimal digits of [i], as [strconv.Itoa] on a non-negative int. *)
Definition Itoa (i : nat) : string :=
  NilZero.string_of_uint (Nat.to_uint i).

(** The points of one peer: the hash of "i"+peer for i in [0, replicas). *)
Definition points (h : Hash) (replicas : Z) (peer : string)
  : list (Z * string) :=
  map (fun i => (h (list_byte_of_string (Itoa i +:+ peer)), peer))
      (seq 0 (Z.to_nat replicas)).

(** Stable insertion by hash: equal hashes keep their order of arrival. *)
Fixpoint insert_point (pt : Z * string) (l : list (Z * string))
  : list (Z * string) :=
  match l with
  | [] => [pt]
  | q :: rest =>
      if fst pt <? fst q then pt :: q :: rest
      else q :: insert_point pt rest
  end.

Definition sort_points (l : list (Z * string)) : list (Z * string) :=
  foldl (fun acc pt => insert_point pt acc) [] l.

(** Modelled from the spec: "for each peer p and i in [0, replicas),
    compute h = hashFn(ascii(i) ++ p) and append (h, p) to the ring.
    After appending, sort the ring by hash ascending", stably. *)
Definition Add (m : Map) (peers : list string) : Map :=
  mkMap (hash m) (replicas m)
        (sort_points (ring m ++ flat_map (points (hash m) (replicas m)) peers)).

(** Modelled from the spec: "For empty ring, return empty string.
    Compute h = hashFn(key), binary-search the smallest index with
    hash >= h, wrap to 0 if past the end, and return that index's
    peer." *)
Definition Get (m : Map) (key : string) : string :=
  match ring m with
  | [] => EmptyString
  | first :: _ =>
      let h := hash m (list_byte_of_string key) in
      match find (fun pt => h <=? fst pt) (ring m) with
      | Some pt => snd pt
      | None => snd first
      end
  end.

End consistenthash.

(** ** Strings: the functions of strings, fmt and net/url that http.go calls *)

(** [err.Error()]. *)
Definition Error (e : error) : string :=
  match e with
  | EOF => "EOF"
  | ErrUnexpectedEOF => "unexpected EOF"
  | ErrHeader => "gzip: invalid header"
  | ErrChecksum => "gzip: invalid checksum"
  | CorruptInputError offset =>
      "flate: corrupt input before offset "
        +:+ NilZero.string_of_int (Z.to_int offset)
  | ErrNotModelled => "gzip: input outside the modelled format"
  | errorString msg => msg
  end.

(** [strings.HasPrefix]. *)
Definition HasPrefix (s prefix : string) : bool := String.prefix prefix s.

(** The slice expression [s[n:]]. *)
Fixpoint string_from (n : nat) (s : string) : string :=
  match n, s with
  | O, _ => s
  | S n', String _ s' => string_from n' s'
  | S _, EmptyString => EmptyString
  end.

(** [strings.Cut] at the first occurrence of a one-byte separator. *)
Fixpoint cut (sep : ascii) (s : string) : option (string * string) :=
  match s with
  | EmptyString => None
  | String c s' =>
      if Ascii.eqb c sep then Some (EmptyString, s')
      else match cut sep s' with
           | Some (before, after) => Some (String c before, after)
           | None => None
           end
  end.

(** The loop of [strings.genSplit]: at most [n] cuts. *)
Fixpoint split_loop (n : nat) (sep : ascii) (s : string) : list string :=
  match n with
  | O => [s]
  | S n' =>
      match cut sep s with
      | None => [s]
      | Some (before, after) => before :: split_loop n' sep after
      end
  end.

(** [strings.SplitN(s, sep, n)] for a one-byte separator and [n >= 0]:
    at most [n] substrings, the last one the unsplit remainder. *)
Definition SplitN (s : string) (sep : ascii) (n : nat) : list string :=
  match n with
  | O => []
  | S k => split_loop (Nat.min k (String.length s)) sep s
  end.

(** [strings.Split(s, "/")]: the "/"-separated segments of [s], every
    "/" a cut. *)
Definition segments (s : string) : list string :=
  split_loop (String.length s) "/" s.

(** [url.shouldEscape(c, encodeQueryComponent)]: everything but the
    unreserved characters of RFC 3986, section 2.3. *)
Definition shouldEscape (c : ascii) : bool :=
  let n := nat_of_ascii c in
  if ((97 <=? n) && (n <=? 122) || (65 <=? n) && (n <=? 90)
      || (48 <=? n) && (n <=? 57))%nat
  then false
  else if (Ascii.eqb c "-" || Ascii.eqb c "_" || Ascii.eqb c "."
           || Ascii.eqb c "~")
  then false
  else true.

Definition upperhex (n : nat) : ascii :=
  nth n ["0"; "1"; "2"; "3"; "4"; "5"; "6"; "7"; "8"; "9";
         "A"; "B"; "C"; "D"; "E"; "F"]%char "0"%char.

(** What [url.escape] writes for one byte in mode [encodeQueryComponent]. *)
Definition escape_byte (c : ascii) : string :=
  if Ascii.eqb c " " then "+"
  else if shouldEscape c
  then String "%" (String (upperhex (nat_of_ascii c / 16))
                          (String (upperhex (nat_of_ascii c mod 16)) EmptyString))
  else String c EmptyString.

(** [url.QueryEscape]. *)
Fixpoint QueryEscape (s : string) : string :=
  match s with
  | EmptyString => EmptyString
  | String c s' => escape_byte c +:+ QueryEscape s'
  end.

(** The message contains [sub]. *)
Definition includes (msg sub : string) : Prop :=
  exists before after, msg = before +:+ sub +:+ after.

(** ** Percent-encoding, RFC 3986 section 2.1

    The reading of "percent-encoded" in the interface description: an
    octet is either written as itself or as the triplet "%" HEXDIG HEXDIG,
    and decoding the triplets gives the original back.  [percent_decode]
    is that decoding; it is not taken from the sources. *)

Definition unhex (c : ascii) : option nat :=
  let n := nat_of_ascii c in
  if ((48 <=? n) && (n <=? 57))%nat then Some (n - 48)%nat
  else if ((65 <=? n) && (n <=? 70))%nat then Some (n - 55)%nat
  else if ((97 <=? n) && (n <=? 102))%nat then Some (n - 87)%nat
  else None.

Fixpoint percent_decode (s : string) : option string :=
  match s with
  | EmptyString => Some EmptyString
  | String c s' =>
      if Ascii.eqb c "%" then
        match s' with
        | String h (String l s'') =>
            match unhex h, unhex l, percent_decode s'' with
            | Some hi, Some lo, Some rest =>
                Some (String (ascii_of_nat (16 * hi + lo)) rest)
            | _, _, _ => None
            end
        | _ => None
        end
      else
        match percent_decode s' with
        | Some rest => Some (String c rest)
        | None => None
        end
  end.

(** A string with every space replaced by "+". *)
Fixpoint plus_for_space (s : string) : string :=
  match s with
  | EmptyString => EmptyString
  | String c s' =>
      String (if Ascii.eqb c " " then "+"%char else c) (plus_for_space s')
  end.

Fixpoint occurs (c : ascii) (s : string) : bool :=
  match s with
  | EmptyString => false
  | String d s' => Ascii.eqb d c || occurs c s'
  end.

(** The reading of "the URL has the shape base, group, "/", key with group
    and key percent-encoded": the two segments percent-decode to the group
    and the key. *)
Definition percent_encoded_URL (u base group key : string) : Prop :=
  exists g' k', u = base +:+ g' +:+ "/" +:+ k' /\
                percent_decode g' = Some group /\
                percent_decode k' = Some key.

(** ** net/http: what the handler and the client see of it *)

Definition StatusOK : Z := 200.
Definition StatusBadRequest : Z := 400.
Definition StatusNotFound : Z := 404.
Definition StatusInternalServerError : Z := 500.

(** The state of an [http.ResponseWriter]: the header map, the status
    code once the header has been written, and the body written so far. *)
Record ResponseWriter : Type := mkResponseWriter {
  Header : gmap string (list string);
  status : option Z;
  body : list byte
}.

(** The writer the server hands to a handler, with headers [h] preset. *)
Definition newResponseWriter (h : gmap string (list string)) : ResponseWriter :=
  mkResponseWriter h None [].

Definition Header_Set (w : ResponseWriter) (k v : string) : ResponseWriter :=
  mkResponseWriter (<[k := [v]]> (Header w)) (status w) (body w).

Definition Header_Del (w : ResponseWriter) (k : string) : ResponseWriter :=
  mkResponseWriter (delete k (Header w)) (status w) (body w).

(** [WriteHeader]: a second call is ignored. *)
Definition WriteHeader (w : ResponseWriter) (code : Z) : ResponseWriter :=
  match status w with
  | Some _ => w
  | None => mkResponseWriter (Header w) (Some code) (body w)
  end.

(** [Write]: writes the header with [StatusOK] first if it is not written. *)
Definition ResponseWriter_Write (w : ResponseWriter) (data : list byte)
  : ResponseWriter :=
  let w1 := WriteHeader w StatusOK in
  mkResponseWriter (Header w1) (status w1) (body w1 ++ data).

Definition newline : string := String (ascii_of_nat 10) EmptyString.

(** [http.Error]. *)
Definition http_Error (w : ResponseWriter) (msg : string) (code : Z)
  : ResponseWriter :=
  let w1 := Header_Del w "Content-Length" in
  let w2 := Header_Set w1 "Content-Type" "text/plain; charset=utf-8" in
  let w3 := Header_Set w2 "X-Content-Type-Options" "nosniff" in
  let w4 := WriteHeader w3 code in
  ResponseWriter_Write w4 (list_byte_of_string (msg +:+ newline)).

(** [http.Request]: the method and [r.URL.Path]. *)
Record Request : Type := mkRequest {
  Method : string;
  Path : string
}.

(** [http.Response]: [Body] is what [ioutil.ReadAll(res.Body)] gives. *)
Record Response : Type := mkResponse {
  StatusCode : Z;
  Status : string;
  Body : result (list byte)
}.

(** ** http.go *)

Definition defaultBasePath : string := "/_yocache/".
Definition defaultReplicas : Z := 50.

(** [Codec = None] is the nil interface, [HashFn = None] the nil func. *)
Record HTTPPoolOptions : Type := mkHTTPPoolOptions {
  BasePath : string;
  Replicas : Z;
  HashFn : option consistenthash.Hash;
  Codec_ : option Codec
}.

Record httpGetter : Type := mkhttpGetter {
  baseURL : string;
  decoder : list byte -> result ByteView
}.

(** [HTTPPool]; [peers = None] is the nil ring, the nil [httpGetters] map
    reads as the empty map.  The mutex makes [Set] and [PickPeer] atomic. *)
Record HTTPPool : Type := mkHTTPPool {
  self : string;
  opts : HTTPPoolOptions;
  peers : option consistenthash.Map;
  httpGetters : gmap string httpGetter
}.

Definition NewHTTPPool (self : string) (opts : HTTPPoolOptions) : HTTPPool :=
  let opts1 :=
    if String.eqb (BasePath opts) ""
    then mkHTTPPoolOptions defaultBasePath (Replicas opts) (HashFn opts) (Codec_ opts)
    else opts in
  let opts2 :=
    if Replicas opts1 =? 0
    then mkHTTPPoolOptions (BasePath opts1) defaultReplicas (HashFn opts1) (Codec_ opts1)
    else opts1 in
  let opts3 :=
    match Codec_ opts2 with
    | None => mkHTTPPoolOptions (BasePath opts2) (Replicas opts2) (HashFn opts2) (Some RawCodec)
    | Some _ => opts2
    end in
  mkHTTPPool self opts3 None ∅.

Section Handler.

(** The group registry and the group lookup are in yocache.go, which is
    not among the sources; the handler is modelled over them.
    [GetGroup name = None] is the nil group. *)
Variable Group : Type.
Variable GetGroup : string -> option Group.
Variable Group_Get : Group -> string -> result ByteView.

(** [HTTPPool.ServeHTTP].  [p.Log] writes to the process log only, which
    is not part of the modelled state. *)
Definition HTTPPool_ServeHTTP (p : HTTPPool) (w : ResponseWriter) (r : Request)
  : outcome ResponseWriter :=
  if negb (HasPrefix (Path r) (BasePath (opts p)))
  then Panics ("HTTPPool serving unexpected path: " +:+ Path r)
  else
    let parts :=
      SplitN (string_from (String.length (BasePath (opts p))) (Path r)) "/" 2 in
    if negb (Nat.eqb (length parts) 2)
    then Returns (http_Error w "bad request" StatusBadRequest)
    else
      let groupName := nth 0 parts EmptyString in
      let key := nth 1 parts EmptyString in
      match GetGroup groupName with
      | None =>
          Returns (http_Error w ("no such group: " +:+ groupName) StatusNotFound)
      | Some group =>
          match Group_Get group key with
          | Err err =>
              Returns (http_Error w (Error err) StatusInternalServerError)
          | Ok view =>
              match Codec_ (opts p) with
              | None => Panics nil_dereference
              | Some codec =>
                  match Encode codec view with
                  | Err err =>
                      Returns (http_Error w (Error err) StatusInternalServerError)
                  | Ok body =>
                      let w1 :=
                        Header_Set w "Content-Type" "application/octet-stream" in
                      Returns (ResponseWriter_Write w1 body)
                  end
              end
          end
      end.

End Handler.

(** The getters [Set] builds, one per peer, in the order of [peers]. *)
Definition make_getters (basePath : string) (codec : Codec) (peers : list string)
  : gmap string httpGetter :=
  foldl (fun m peer => <[peer := mkhttpGetter (peer +:+ basePath) (Decode codec)]> m)
        ∅ peers.

(** [HTTPPool.Set].  Taking [p.opts.Codec.Decode] of a nil codec panics,
    in the first iteration of the loop over [peers]. *)
Definition HTTPPool_Set (p : HTTPPool) (peers : list string) : outcome HTTPPool :=
  let ring :=
    consistenthash.Add
      (consistenthash.New (Replicas (opts p)) (HashFn (opts p))) peers in
  match peers, Codec_ (opts p) with
  | _ :: _, None => Panics nil_dereference
  | [], None => Returns (mkHTTPPool (self p) (opts p) (Some ring) ∅)
  | _, Some codec =>
      Returns (mkHTTPPool (self p) (opts p) (Some ring)
                          (make_getters (BasePath (opts p)) codec peers))
  end.

(** [HTTPPool.PickPeer].  The getter is [None] for a nil [*httpGetter].
    [p.peers.Get(key)] is a call through the pointer [p.peers], which is
    nil until [Set] has run; what [Get] does through a nil receiver is
    decided by its body, in package consistenthash, and [Get_nil] stands
    for that outcome.  On a pool that [Set] has returned [Get_nil] is never
    consulted. *)
Definition HTTPPool_PickPeer (Get_nil : string -> outcome string)
           (p : HTTPPool) (key : string)
  : outcome (option httpGetter * bool) :=
  let got :=
    match peers p with
    | None => Get_nil key
    | Some ring => Returns (consistenthash.Get ring key)
    end in
  match got with
  | Panics msg => Panics msg
  | Returns peer =>
      if negb (String.eqb peer "") && negb (String.eqb peer (self p))
      then Returns (httpGetters p !! peer, true)
      else Returns (None, false)
  end.

(** The URL [httpGetter.Get] requests:
    [fmt.Sprintf("%v%v/%v", h.baseURL, url.QueryEscape(group), url.QueryEscape(key))]. *)
Definition request_URL (h : httpGetter) (group key : string) : string :=
  baseURL h +:+ QueryEscape group +:+ "/" +:+ QueryEscape key.

(** [httpGetter.Get]; [http_Get] is the transport, [http.Get]. *)
Definition httpGetter_Get (http_Get : string -> result Response)
           (h : httpGetter) (group key : string) : result (list byte) :=
  let u := request_URL h group key in
  match http_Get u with
  | Err err => Err err
  | Ok res =>
      if negb (StatusCode res =? StatusOK)
      then Err (errorString ("server returned: " +:+ Status res))
      else
        match Body res with
        | Err err => Err (errorString ("reading response body: " +:+ Error err))
        | Ok body =>
            match decoder h body with
            | Err err =>
                Err (errorString ("decoding response body: " +:+ Error err))
            | Ok view => Ok (ByteSlice view)
            end
        end
  end.

(** ** Single-flight *)

Module singleflight.

Section Do.

(** The [(value, error)] pair that [fn] returns, and its zero value. *)
Context {V : Type}.
Variable zero : V.

(** All callers call [Do(key, fn)]; [fn n] is what the invocation
    number [n] of [fn] returns. *)
Variable key : string.
Variable fn : nat -> V.

(** Modelled from the spec: package singleflight is not among the
    sources.  A call record has "a completion latch, a result value,
    and an error"; [done] is the released latch. *)
Record call : Type := mkCall { val : V; done : bool }.

(** Where a caller of [Do] stands. *)
Inductive pc : Type :=
| Idle                               (* has not called [Do] yet *)
| Locking                            (* in [Do], before the mutex *)
| Calling (c : nat)                  (* inserted record [c], [fn] runs *)
| Releasing (c : nat)                (* result stored, latch held *)
| Deleting (c : nat)                 (* latch released, record in the map *)
| Waiting (c : nat)                  (* found record [c], waits on its latch *)
| Returned (r : V) (shared : bool).  (* [Do] returned [(r, shared)] *)

(** The coordinator's map under its mutex, the call records, the
    callers, and the number of invocations of [fn] so far. *)
Record state : Type := mkState {
  m : gmap string nat;
  heap : list call;
  pool : list pc;
  calls : nat
}.

Definition init (N : nat) : state :=
  mkState ∅ [] (replicate N Idle) 0.

Definition record (st : state) (c : nat) : call :=
  default (mkCall zero false) (heap st !! c).

(** Modelled from the spec: one atomic step of caller [t] of
    [Do(key, fn)].  "Acquire the coordinator mutex.  If an in-flight
    call for key exists, release the mutex, wait on its completion
    latch, then return its (value, error, shared=true).  Otherwise
    create a new call record, insert it under key, release the mutex,
    then invoke fn.  When fn returns, store its value and error into
    the call record, release the completion latch, then re-acquire the
    mutex, delete the record, and release.  Return (value, error,
    shared=false)."  A caller that cannot move (it waits on a held
    latch, or has returned) leaves the state as it is. *)
Definition step (t : nat) (st : state) : state :=
  match pool st !! t with
  | Some Idle =>
      mkState (m st) (heap st) (<[t := Locking]> (pool st)) (calls st)
  | Some Locking =>
      match m st !! key with
      | Some c =>
          mkState (m st) (heap st) (<[t := Waiting c]> (pool st)) (calls st)
      | None =>
          let c := length (heap st) in
          mkState (<[key := c]> (m st)) (heap st ++ [mkCall zero false])
                  (<[t := Calling c]> (pool st)) (calls st)
      end
  | Some (Calling c) =>
      mkState (m st) (<[c := mkCall (fn (calls st)) false]> (heap st))
              (<[t := Releasing c]> (pool st)) (S (calls st))
  | Some (Releasing c) =>
      mkState (m st) (<[c := mkCall (val (record st c)) true]> (heap st))
              (<[t := Deleting c]> (pool st)) (calls st)
  | Some (Deleting c) =>
      mkState (delete key (m st)) (heap st)
              (<[t := Returned (val (record st c)) false]> (pool st)) (calls st)
  | Some (Waiting c) =>
      if done (record st c)
      then mkState (m st) (heap st)
                   (<[t := Returned (val (record st c)) true]> (pool st)) (calls st)
      else st
  | Some (Returned _ _) => st
  | None => st
  end.

(** An interleaving: the callers that move, in order. *)
Definition run (schedule : list nat) (st : state) : state :=
  foldl (fun st t => step t st) st schedule.

Definition is_Returned (p : pc) : bool :=
  match p with Returned _ _ => true | _ => false end.

(** The caller is in [Do]: it has called and has not returned. *)
Definition in_Do (p : pc) : bool :=
  match p with Idle | Returned _ _ => false | _ => true end.

(** The caller has been through the mutex of step 1. *)
Definition entered (p : pc) : bool :=
  match p with Idle | Locking => false | _ => true end.

(** The caller has deleted the call record it created. *)
Definition deleted (p : pc) : bool :=
  match p with Returned _ false => true | _ => false end.

(** All calls are in progress at [st]. *)
Definition concurrent (st : state) : bool := forallb in_Do (pool st).

(** All callers have entered while the first call is still in flight:
    its record has not been deleted. *)
Definition in_flight (st : state) : bool :=
  forallb entered (pool st) && forallb (fun p => negb (deleted p)) (pool st).

Definition all_returned (st : state) : bool := forallb is_Returned (pool st).

(** The callers that observed [shared = false]. *)
Definition unshared (st : state) : nat :=
  length (List.filter deleted (pool st)).

(** The results the callers received. *)
Definition results (st : state) : list V :=
  omap (fun p => match p with Returned r _ => Some r | _ => None end) (pool st).

(** The steps a caller takes at most before [Do] returns to it. *)
Definition remaining (p : pc) : nat :=
  match p with
  | Idle => 5
  | Locking => 4
  | Calling _ => 3
  | Releasing _ => 2
  | Deleting _ => 1
  | Waiting _ => 1
  | Returned _ _ => 0
  end.

(** The steps all callers together take at most before all have
    returned. *)
Definition work (st : state) : nat := sum_list (remaining <$> pool st).

(** The caller [L] leads the one flight there is, with call record [c]. *)
Definition leads (st : state) (L c : nat) : Prop :=
  match pool st !! L with
  | Some (Calling c') =>
      c' = c /\ heap st !! c = Some (mkCall zero false) /\
      calls st = 0%nat /\ m st !! key = Some c
  | Some (Releasing c') =>
      c' = c /\ heap st !! c = Some (mkCall (fn 0) false) /\
      calls st = 1%nat /\ m st !! key = Some c
  | Some (Deleting c') =>
      c' = c /\ heap st !! c = Some (mkCall (fn 0) true) /\
      calls st = 1%nat /\ m st !! key = Some c
  | Some (Returned r false) =>
      r = fn 0%nat /\ heap st !! c = Some (mkCall (fn 0) true) /\
      calls st = 1%nat /\ m st !! key = None
  | _ => False
  end.

(** A caller that does not lead: it has yet to enter, waits on the
    leader's record, or has returned the leader's result as shared. *)
Definition follows (c : nat) (p : pc) : Prop :=
  p = Idle \/ p = Locking \/ p = Waiting c \/ p = Returned (fn 0%nat) true.

Definition one_flight (st : state) : Prop :=
  exists L c, leads st L c /\
    forall i p, i <> L -> pool st !! i = Some p -> follows c p.

Definition none_entered (st : state) : Prop :=
  (forall i p, pool st !! i = Some p -> p = Idle \/ p = Locking) /\
  calls st = 0%nat /\ m st !! key = None.

Definition flight_inv (st : state) : Prop := none_entered st \/ one_flight st.

(** No caller goes through the mutex of step 1 after a record was deleted. *)
Definition enters_in_flight (t : nat) (st : state) : Prop :=
  (exists L r, pool st !! L = Some (Returned r false)) ->
  pool st !! t <> Some Locking.

(** No call record has been deleted. *)
Definition no_delete (st : state) : Prop :=
  forall i r, pool st !! i <> Some (Returned r false).

End Do.

End singleflight.

(** ** Runs of the cache *)

(** The entry the cache holds under [key], if any. *)
Definition stored (c : cache) (key : string) : option lru.entry :=
  match lru c with
  | None => None
  | Some l => lru.lookup key (lru.ll l)
  end.

(** A sequence of [get] calls, each with the clock reading at the call. *)
Definition cache_gets (gets : list (Time * string)) (c : cache) : cache :=
  foldl (fun c g => snd (cache_get (fst g) c (snd g))) c gets.

(** ** Sample inputs *)

Definition sample_opts : HTTPPoolOptions := mkHTTPPoolOptions "" 0 None None.

Definition sample_pool : HTTPPool := NewHTTPPool "http://localhost:8001" sample_opts.

Definition sample_peers : list string :=
  ["http://localhost:8001"; "http://localhost:8002"; "http://localhost:8003"].

Definition sample_pool_set : HTTPPool :=
  match HTTPPool_Set sample_pool sample_peers with
  | Returns p => p
  | Panics _ => sample_pool
  end.

Definition sample_getter : httpGetter :=
  mkhttpGetter "http://localhost:8002/_yocache/" RawCodec_Decode.

(** A registry with the one group "scores", which knows the key "Tom". *)
Definition sample_GetGroup (name : string) : option unit :=
  if String.eqb name "scores" then Some tt else None.

Definition sample_Group_Get (_ : unit) (key : string) : result ByteView :=
  if String.eqb key "Tom" then Ok (mkByteView ["6"; "3"; "0"]%byte)
  else Err (errorString (key +:+ " not exist")).

(** A group whose loader answers every key with the key itself. *)
Definition echo_Group_Get (_ : unit) (key : string) : result ByteView :=
  Ok (mkByteView (list_byte_of_string key)).

Definition not_found : Response := mkResponse 404 "404 Not Found" (Ok []).

(** A call of [add] or of [get], with the clock reading at the call. *)
Inductive cache_op : Type :=
| op_add (now : Time) (key : string) (value : ByteView)
| op_get (now : Time) (key : string).

Definition cache_apply (c : cache) (op : cache_op) : cache :=
  match op with
  | op_add now key value => cache_add now c key value
  | op_get now key => snd (cache_get now c key)
  end.

Definition cache_run (ops : list cache_op) (c : cache) : cache :=
  foldl cache_apply c ops.

Definition is_add (op : cache_op) : bool :=
  match op with op_add _ _ _ => true | op_get _ _ => false end.

(** What a call does to an LRU that exists, in a cache whose ttl is [d]:
    [add] is [lru.Add] with the expire timestamp the ttl gives, [get] is
    [lru.Get]. *)
Definition lru_apply (d : Duration) (l : lru.Cache) (op : cache_op) : lru.Cache :=
  match op with
  | op_add now key value =>
      lru.Add l key value (if negb (d =? 0) then Time_Add now d else Time_zero)
  | op_get now key => snd (lru.Get now l key)
  end.

(** ** Responses and more sample inputs *)

(** What [http.Error] leaves in a fresh response writer: the status code,
    the message followed by a newline as body, the plain-text content
    type, the no-sniff option, and no content length. *)
Definition error_response (w : ResponseWriter) (msg : string) (code : Z) : Prop :=
  status w = Some code /\
  body w = list_byte_of_string (msg +:+ newline) /\
  Header w !! "Content-Type" = Some ["text/plain; charset=utf-8"] /\
  Header w !! "X-Content-Type-Options" = Some ["nosniff"] /\
  Header w !! "Content-Length" = None.

(** A pool whose options name the Gzip codec, and its pool after [Set]. *)
Definition gzip_opts : HTTPPoolOptions :=
  mkHTTPPoolOptions "" 0 None (Some GzipCodec).

Definition gzip_pool : HTTPPool := NewHTTPPool "http://localhost:8001" gzip_opts.

Definition gzip_pool_set : HTTPPool :=
  match HTTPPool_Set gzip_pool sample_peers with
  | Returns p => p
  | Panics _ => gzip_pool
  end.

Definition gzip_getter : httpGetter :=
  mkhttpGetter "http://localhost:8002/_yocache/" GzipCodec_Decode.

Definition tom : ByteView := mkByteView ["6"; "3"; "0"]%byte.

(** A response with the given body and status 200. *)
Definition ok_response (body : list byte) : Response :=
  mkResponse 200 "200 OK" (Ok body).

(** * Properties *)

Example crc32_check :
  crc32.ChecksumIEEE ["1"; "2"; "3"; "4"; "5"; "6"; "7"; "8"; "9"]%byte = 0xcbf43926.
Proof. vm_compute. reflexivity. Qed.

(** ** The concurrent cache *)

Section CacheFacts.

Import lru.

Lemma evict_app maxBytes l :
  forall gone kept, evict maxBytes l = (gone, kept) -> l = gone ++ kept.
Proof.
  induction l as [|e rest IH]; intros gone kept; simpl.
  - intros [= <- <-]. reflexivity.
  - destruct (_ && _).
    + destruct (evict maxBytes rest) as [g k] eqn:E.
      intros [= <- <-]. simpl. f_equal. now apply IH.
    + intros [= <- <-]. reflexivity.
Qed.

Lemma lookup_without k l : lookup k (without k l) = None.
Proof.
  unfold lookup, without. induction l as [|e l IH]; simpl; [reflexivity|].
  destruct (has_key k e) eqn:E; simpl; [assumption|].
  now rewrite E.
Qed.

(** In a suffix of the list [Add] builds, the key is either gone or
    bound to the new entry. *)
Lemma lookup_suffix k e l gone kept :
  has_key k e = true ->
  lookup k l = None ->
  l ++ [e] = gone ++ kept ->
  lookup k kept = None \/ lookup k kept = Some e.
Proof.
  intros He. revert gone. induction l as [|x l IH]; intros gone Hl Heq.
  - destruct gone as [|g gone]; simpl in Heq.
    + subst kept. right. unfold lookup. simpl. now rewrite He.
    + injection Heq as -> Heq. symmetry in Heq.
      apply app_eq_nil in Heq as [_ ->]. now left.
  - unfold lookup in Hl. simpl in Hl.
    destruct (has_key k x) eqn:Hx; [discriminate|].
    destruct gone as [|g gone]; simpl in Heq.
    + subst kept. right. unfold lookup. simpl. rewrite Hx.
      fold (lookup k (l ++ [e])). clear IH.
      induction l as [|y l IHl]; simpl.
      * unfold lookup. simpl. now rewrite He.
      * unfold lookup in *. simpl in *.
        destruct (has_key k y); [discriminate|]. now apply IHl.
    + injection Heq as -> Heq. now apply (IH gone).
Qed.

Lemma Add_lookup c k v exp :
  lookup k (ll (Add c k v exp)) = None \/
  lookup k (ll (Add c k v exp)) = Some (mkEntry k v exp).
Proof.
  unfold Add.
  destruct (evict _ _) as [gone kept] eqn:E. simpl.
  apply evict_app in E.
  eapply lookup_suffix; [| apply lookup_without | exact E].
  unfold has_key. simpl. apply String.eqb_refl.
Qed.

(** An entry that fits the budget survives the eviction that follows its
    insertion. *)
Lemma evict_keeps_last maxBytes e l :
  maxBytes <= 0 \/ entry_bytes e <= maxBytes ->
  exists gone kept, evict maxBytes (l ++ [e]) = (gone, kept ++ [e]).
Proof.
  intros Hfit. induction l as [|x l IH].
  - exists [], []. simpl.
    destruct ((0 <? maxBytes) && (maxBytes <? entry_bytes e + 0)) eqn:E; [|reflexivity].
    apply andb_true_iff in E as [E1 E2]. apply Z.ltb_lt in E1, E2. lia.
  - destruct IH as (gone & kept & IH). cbn [app evict].
    destruct ((0 <? maxBytes) && _).
    + rewrite IH. now exists (x :: gone), kept.
    + now exists [], (x :: l).
Qed.

Lemma Add_lookup_fits c k v exp :
  maxBytes c <= 0 \/ entry_bytes (mkEntry k v exp) <= maxBytes c ->
  lookup k (ll (Add c k v exp)) = Some (mkEntry k v exp).
Proof.
  intros Hfit. destruct (Add_lookup c k v exp) as [Hn|Hs]; [|exact Hs].
  exfalso. unfold Add in Hn.
  destruct (evict_keeps_last _ _ (without k (ll c)) Hfit) as (gone & kept & E).
  rewrite E in Hn. simpl in Hn. unfold lookup in Hn.
  assert (Hf : has_key k (mkEntry k v exp) = false).
  { apply (find_none _ _ Hn). apply in_or_app. right. now left. }
  unfold has_key in Hf. simpl in Hf. rewrite String.eqb_refl in Hf. discriminate.
Qed.

Lemma expired_zero now e : expire e = Time_zero -> expired now e = false.
Proof. unfold expired. intros ->. reflexivity. Qed.

(** Without a byte budget nothing is evicted. *)
Lemma evict_unbounded maxBytes l : maxBytes <= 0 -> evict maxBytes l = ([], l).
Proof.
  intros H. destruct l as [|e l]; simpl; [reflexivity|].
  destruct (0 <? maxBytes) eqn:E; [apply Z.ltb_lt in E; lia | reflexivity].
Qed.

Lemma Add_unbounded c k v exp :
  maxBytes c <= 0 ->
  Add c k v exp =
    mkCache (maxBytes c) (without k (ll c) ++ [mkEntry k v exp]) (onEvict c)
            (callback c []).
Proof. intros H. unfold Add. now rewrite evict_unbounded. Qed.

End CacheFacts.

(** On a cache that has its LRU, a sequence of calls is that sequence of
    [lru.Add] and [lru.Get] calls on the LRU. *)
Lemma cache_run_Some (ops : list cache_op) :
  forall (c : cache) (l : lru.Cache),
    lru c = Some l ->
    lru (cache_run ops c) = Some (foldl (lru_apply (ttl c)) l ops) /\
    cacheBytes (cache_run ops c) = cacheBytes c /\
    ttl (cache_run ops c) = ttl c.
Proof.
  induction ops as [|op ops IH]; intros c l Hl; [now split|].
  change (cache_run (op :: ops) c) with (cache_run ops (cache_apply c op)).
  assert (H : lru (cache_apply c op) = Some (lru_apply (ttl c) l op) /\
              cacheBytes (cache_apply c op) = cacheBytes c /\
              ttl (cache_apply c op) = ttl c).
  { destruct op as [now key value|now key]; simpl.
    - unfold cache_add. rewrite Hl. simpl. repeat split.
    - unfold cache_get. rewrite Hl.
      destruct (lru.Get now l key) as [[v|] l']; simpl; repeat split. }
  destruct H as (H1 & H2 & H3).
  destruct (IH _ _ H1) as (I1 & I2 & I3).
  rewrite H3 in I1. simpl. split; [exact I1|]. split; congruence.
Qed.

(** C7.  An entry added to a cache whose ttl is 0 is stored with the zero
    expire timestamp, is never judged expired, and a [get] at any later
    time returns it; an entry added at time [now] to a cache whose ttl is
    [d > 0] is stored with the expire timestamp [now + d].  The entry is
    stored whenever it fits the byte budget of the LRU. *)
Theorem cache_add_expire (now : Time) (c : cache) (key : string) (value : ByteView) :
  let c' := cache_add now c key value in
  let l0 := match lru c with
            | Some l => l
            | None => lru.New (cacheBytes c) false
            end in
  lru c' = Some (lru.Add l0 key value (add_expire c now)) /\
  (lru.maxBytes l0 <= 0 \/
   Z.of_nat (String.length key) + Len value <= lru.maxBytes l0 ->
   stored c' key = Some (lru.mkEntry key value (add_expire c now))) /\
  (forall e, stored c' key = Some e ->
     lru.key e = key /\ lru.value e = value /\ lru.expire e = add_expire c now) /\
  (ttl c = 0 ->
     add_expire c now = Time_zero /\
     forall e t, stored c' key = Some e ->
       lru.expired t e = false /\ fst (cache_get t c' key) = (value, true)) /\
  (0 < ttl c -> add_expire c now = now + ttl c).
Proof.
  intros c' l. subst c'. unfold cache_add, stored. simpl. fold l.
  pose proof (Add_lookup l key value (add_expire c now)) as Hl.
  split; [reflexivity|].
  split; [intros Hfit; now apply Add_lookup_fits|].
  split.
  { intros e He. rewrite He in Hl. destruct Hl as [Hl|Hl]; [discriminate|].
    injection Hl as ->. auto. }
  split.
  - intros Httl.
    assert (Hz : add_expire c now = Time_zero).
    { unfold add_expire. rewrite Httl. reflexivity. }
    rewrite Hz in *. split; [reflexivity|].
    intros e t He. rewrite He in Hl. destruct Hl as [Hl|Hl]; [discriminate|].
    injection Hl as ->.
    split; [reflexivity|].
    unfold cache_get. simpl. unfold lru.Get. rewrite He. reflexivity.
  - intros Httl. unfold add_expire, Time_Add.
    destruct (ttl c =? 0) eqn:E; [apply Z.eqb_eq in E; lia | reflexivity].
Qed.

(** C8.  On a cache on which [add] has never been called, any sequence of
    [get] calls leaves the cache as it was, with no LRU constructed, and
    [get] returns the zero ByteView and [false].  The first [add]
    constructs the LRU, with the cache's byte budget and no callback, and
    adds to it.  On a cache that has its LRU, neither [add] nor [get]
    constructs another: each calls the LRU there is, so that the cache
    after the first [add] and any further calls holds the one LRU that
    the first [add] constructed, with all these calls made on it in order;
    in particular a second [add], under another key, keeps the entry the
    first [add] stored. *)
Theorem cache_get_before_add (cacheBytes : Z) (ttl : Duration)
        (gets : list (Time * string)) (now : Time) (key : string) :
  let c0 := mkcache None cacheBytes ttl in
  let c := cache_gets gets c0 in
  c = c0 /\
  lru c = None /\
  cache_get now c key = ((ByteView_zero, false), c) /\
  (forall now' k v, lru (cache_add now' c k v) <> None) /\
  (forall now' k v,
     lru (cache_add now' c k v)
     = Some (lru.Add (lru.New cacheBytes false) k v (add_expire c now'))) /\
  (forall c1 l now' k v,
     lru c1 = Some l ->
     lru (cache_add now' c1 k v) = Some (lru.Add l k v (add_expire c1 now')) /\
     lru (snd (cache_get now' c1 k)) = Some (snd (lru.Get now' l k))) /\
  (forall now' k v ops,
     lru (cache_run (op_add now' k v :: ops) c)
     = Some (foldl (lru_apply ttl) (lru.New cacheBytes false)
                   (op_add now' k v :: ops))) /\
  (forall t1 k1 v1 t2 k2 v2,
     cacheBytes <= 0 -> k1 <> k2 ->
     stored (cache_add t2 (cache_add t1 c k1 v1) k2 v2) k1
     = Some (lru.mkEntry k1 v1 (add_expire c t1))).
Proof.
  intros c0 c.
  assert (Hc : c = c0).
  { subst c. induction gets as [|g gets IH]; [reflexivity|]. exact IH. }
  rewrite Hc.
  split; [reflexivity|]. split; [reflexivity|]. split; [reflexivity|].
  split; [discriminate|]. split; [reflexivity|]. split; [|split].
  - intros c1 l now' k v Hl. unfold cache_add, cache_get. rewrite Hl.
    split; [reflexivity|].
    destruct (lru.Get now' l k) as [[x|] l']; reflexivity.
  - intros now' k v ops.
    change (cache_run (op_add now' k v :: ops) c0)
      with (cache_run ops (cache_add now' c0 k v)).
    destruct (cache_run_Some ops (cache_add now' c0 k v) _ eq_refl) as (H & _).
    exact H.
  - intros t1 k1 v1 t2 k2 v2 Hb Hne.
    unfold stored, cache_add. simpl.
    rewrite (Add_unbounded (lru.New cacheBytes false)) by exact Hb.
    rewrite Add_unbounded by exact Hb. simpl.
    unfold lru.lookup, lru.has_key. simpl.
    destruct (String.eqb k1 k2) eqn:E; [apply String.eqb_eq in E; contradiction|].
    simpl. now rewrite String.eqb_refl.
Qed.

(** ** Strings *)

Lemma append_assoc_s (a b c : string) : (a +:+ b) +:+ c = a +:+ (b +:+ c).
Proof. induction a as [|x a IH]; simpl; [reflexivity | now rewrite IH]. Qed.

Lemma HasPrefix_append (a rest : string) : HasPrefix (a +:+ rest) a = true.
Proof.
  unfold HasPrefix. induction a as [|x a IH]; simpl.
  - now destruct rest.
  - destruct (ascii_dec x x) as [_|N]; [exact IH | now destruct N].
Qed.

Lemma string_from_append (a rest : string) :
  string_from (String.length a) (a +:+ rest) = rest.
Proof. induction a as [|x a IH]; simpl; [reflexivity | exact IH]. Qed.

Lemma HasPrefix_split (s a : string) :
  HasPrefix s a = true -> s = a +:+ string_from (String.length a) s.
Proof.
  unfold HasPrefix. revert s.
  induction a as [|x a IH]; intros s; destruct s as [|y s]; simpl;
    try reflexivity; try discriminate.
  destruct (ascii_dec x y) as [->|_]; [|discriminate].
  intros H. f_equal. now apply IH.
Qed.

(** [SplitN s "/" 2] has two parts exactly when [s] contains the separator,
    and then the parts are what is before and after its first occurrence. *)
Lemma SplitN_2 (sep : ascii) (s : string) :
  SplitN s sep 2 =
    match cut sep s with
    | Some (before, after) => [before; after]
    | None => [s]
    end.
Proof.
  unfold SplitN. destruct s as [|c s]; [reflexivity|]. simpl Nat.min.
  reflexivity.
Qed.

Lemma cut_occurs (sep : ascii) (s : string) :
  occurs sep s = true <-> exists before after, cut sep s = Some (before, after).
Proof.
  induction s as [|c s IH]; simpl.
  - split; [discriminate | intros (x & y & H); discriminate].
  - destruct (Ascii.eqb c sep); simpl.
    + split; eauto.
    + rewrite IH. split.
      * intros (x & y & ->). eauto.
      * intros (x & y & H). destruct (cut sep s) as [[x' y']|]; [eauto | discriminate].
Qed.

(** What [cut] returns: the string is the part before, the separator and
    the part after, and the part before holds no separator. *)
Lemma cut_Some (sep : ascii) (s g k : string) :
  cut sep s = Some (g, k) -> s = g +:+ String sep k /\ occurs sep g = false.
Proof.
  revert g. induction s as [|c s IH]; intros g; simpl; [discriminate|].
  destruct (Ascii.eqb c sep) eqn:E.
  - intros [= <- <-]. apply Ascii.eqb_eq in E. subst c. now split.
  - destruct (cut sep s) as [[x y]|]; [|discriminate].
    intros [= <- <-]. destruct (IH x eq_refl) as [-> Ho].
    simpl. rewrite E. now split.
Qed.

(** A string has one "/"-separated segment when it holds no "/", and two
    or more when it holds one. *)
Lemma segments_length (s : string) :
  if occurs "/" s then (2 <= length (segments s))%nat
  else length (segments s) = 1%nat.
Proof.
  unfold segments. pose proof (cut_occurs "/" s) as Ho.
  destruct (occurs "/" s).
  - destruct (proj1 Ho eq_refl) as (x & y & Hxy).
    destruct s as [|c s]; [discriminate|].
    cbn [String.length split_loop]. rewrite Hxy.
    destruct (String.length s); simpl; [lia|].
    destruct (cut "/" y) as [[? ?]|]; simpl; lia.
  - destruct (String.length s); simpl; [reflexivity|].
    destruct (cut "/" s) as [[x y]|] eqn:E; [|reflexivity].
    assert (false = true) by (apply Ho; eauto). discriminate.
Qed.

(** ** The HTTP handler *)

Lemma http_Error_status (h : gmap string (list string)) (msg : string) (code : Z) :
  status (http_Error (newResponseWriter h) msg code) = Some code.
Proof. reflexivity. Qed.

Lemma http_Error_body (w : ResponseWriter) (msg : string) (code : Z) :
  body (http_Error w msg code) = body w ++ list_byte_of_string (msg +:+ newline).
Proof. destruct w as [hd [st|] bd]; reflexivity. Qed.

Section HandlerFacts.

Variable Group : Type.
Variable GetGroup : string -> option Group.
Variable Group_Get : Group -> string -> result ByteView.

Local Abbreviation ServeHTTP := (HTTPPool_ServeHTTP Group GetGroup Group_Get).

Lemma ServeHTTP_prefixed (p : HTTPPool) (w : ResponseWriter) (r : Request) (rest : string) :
  Path r = BasePath (opts p) +:+ rest ->
  ServeHTTP p w r =
    let parts := SplitN rest "/" 2 in
    if negb (Nat.eqb (length parts) 2)
    then Returns (http_Error w "bad request" StatusBadRequest)
    else
      match GetGroup (nth 0 parts EmptyString) with
      | None =>
          Returns (http_Error w ("no such group: " +:+ nth 0 parts EmptyString)
                              StatusNotFound)
      | Some group =>
          match Group_Get group (nth 1 parts EmptyString) with
          | Err err => Returns (http_Error w (Error err) StatusInternalServerError)
          | Ok view =>
              match Codec_ (opts p) with
              | None => Panics nil_dereference
              | Some codec =>
                  match Encode codec view with
                  | Err err =>
                      Returns (http_Error w (Error err) StatusInternalServerError)
                  | Ok body =>
                      Returns (ResponseWriter_Write
                                 (Header_Set w "Content-Type" "application/octet-stream")
                                 body)
                  end
              end
          end
      end.
Proof.
  intros HP. unfold HTTPPool_ServeHTTP.
  rewrite HP, HasPrefix_append, string_from_append. reflexivity.
Qed.

(** C3, as amended.  For a request whose path is [BasePath] followed by
    [rest], served by a pool with a codec on a fresh response writer: the
    status is 400 exactly when [rest] holds no "/", that is when it is a
    single segment.  Otherwise [rest] is split at its first "/" only, into
    the group name, which holds no "/", and the key, which is all that
    follows and may hold more; however many segments [rest] has, the
    status is then not 400 but 404 if the group is not registered; 500 if
    the group lookup or the codec's Encode fails; otherwise 200 with
    Content-Type application/octet-stream and the encoded value as
    body. *)
Theorem ServeHTTP_responses (p : HTTPPool) (codec : Codec)
        (h : gmap string (list string)) (r : Request) (rest : string) :
  Codec_ (opts p) = Some codec ->
  Path r = BasePath (opts p) +:+ rest ->
  let parts := SplitN rest "/" 2 in
  let out := ServeHTTP p (newResponseWriter h) r in
  (length parts <> 2%nat <-> occurs "/" rest = false) /\
  (length parts <> 2%nat ->
     exists w, out = Returns w /\ status w = Some 400) /\
  (forall g k, parts = [g; k] -> GetGroup g = None ->
     exists w, out = Returns w /\ status w = Some 404) /\
  (forall g k group e, parts = [g; k] -> GetGroup g = Some group ->
     Group_Get group k = Err e ->
     exists w, out = Returns w /\ status w = Some 500) /\
  (forall g k group view e, parts = [g; k] -> GetGroup g = Some group ->
     Group_Get group k = Ok view -> Encode codec view = Err e ->
     exists w, out = Returns w /\ status w = Some 500) /\
  (forall g k group view encoded, parts = [g; k] -> GetGroup g = Some group ->
     Group_Get group k = Ok view -> Encode codec view = Ok encoded ->
     exists w, out = Returns w /\ status w = Some 200 /\
       Header w !! "Content-Type" = Some ["application/octet-stream"] /\
       body w = encoded) /\
  (length parts <> 2%nat <-> length (segments rest) = 1%nat) /\
  (occurs "/" rest = true ->
     (2 <= length (segments rest))%nat /\
     exists g k,
       parts = [g; k] /\ rest = g +:+ "/" +:+ k /\ occurs "/" g = false /\
       exists w, out = Returns w /\
         (status w = Some 404 \/ status w = Some 500 \/ status w = Some 200)) /\
  (forall w, out = Returns w -> (status w = Some 400 <-> occurs "/" rest = false)).
Proof.
  intros Hc HP parts out. subst out.
  rewrite (ServeHTTP_prefixed _ _ _ _ HP). cbv zeta. fold parts. rewrite Hc.
  assert (Hparts : length parts <> 2%nat <-> occurs "/" rest = false).
  { unfold parts. rewrite SplitN_2.
    pose proof (cut_occurs "/" rest) as Ho.
    destruct (cut "/" rest) as [[x y]|]; simpl.
    - split; [congruence|]. intros Hf. exfalso.
      assert (Ht : occurs "/" rest = true) by (apply Ho; eauto). congruence.
    - split; [|intros _; discriminate]. intros _.
      destruct (occurs "/" rest); [|reflexivity].
      destruct (proj1 Ho eq_refl) as (x & y & Hxy). discriminate. }
  assert (Hslash : occurs "/" rest = true ->
            exists g k, parts = [g; k] /\ rest = g +:+ "/" +:+ k /\
                        occurs "/" g = false).
  { intros Ho. apply cut_occurs in Ho as (g & k & Hcut).
    exists g, k. unfold parts. rewrite SplitN_2, Hcut.
    split; [reflexivity|]. now apply cut_Some. }
  split; [exact Hparts|].
  split.
  { intros Hlen. apply Nat.eqb_neq in Hlen. rewrite Hlen. simpl.
    eexists. split; [reflexivity|]. reflexivity. }
  split.
  { intros g k -> Hg. simpl. rewrite Hg.
    eexists. split; [reflexivity|]. reflexivity. }
  split.
  { intros g k group e -> Hg He. simpl. rewrite Hg, He.
    eexists. split; [reflexivity|]. reflexivity. }
  split.
  { intros g k group view e -> Hg Hv He. simpl. rewrite Hg, Hv, He.
    eexists. split; [reflexivity|]. reflexivity. }
  split.
  { intros g k group view encoded -> Hg Hv He. simpl. rewrite Hg, Hv, He.
    eexists. split; [reflexivity|]. repeat split.
    simpl. apply lookup_insert_eq. }
  split.
  { rewrite Hparts. pose proof (segments_length rest) as Hs.
    destruct (occurs "/" rest); [|tauto].
    split; [discriminate | intros H1; rewrite H1 in Hs; lia]. }
  split.
  { intros Ho. pose proof (segments_length rest) as Hs. rewrite Ho in Hs.
    split; [exact Hs|].
    destruct (Hslash Ho) as (g & k & Hgk & Hrest & Hg).
    exists g, k. split; [exact Hgk|]. split; [exact Hrest|]. split; [exact Hg|].
    rewrite Hgk. simpl.
    destruct (GetGroup g); [|eexists; split; [reflexivity|]; now left].
    destruct (Group_Get _ k); [|eexists; split; [reflexivity|]; right; now left].
    destruct (Encode codec _); eexists; (split; [reflexivity|]);
      right; [right|left]; reflexivity. }
  intros w Hw. destruct (occurs "/" rest) eqn:Ho.
  - destruct (Hslash eq_refl) as (g & k & Hgk & _). rewrite Hgk in Hw. simpl in Hw.
    split; [|discriminate]. intros Hst. exfalso.
    destruct (GetGroup g); [|injection Hw as <-; discriminate Hst].
    destruct (Group_Get _ k); [|injection Hw as <-; discriminate Hst].
    destruct (Encode codec _); injection Hw as <-; discriminate Hst.
  - assert (Hlen : length parts <> 2%nat) by now apply Hparts.
    apply Nat.eqb_neq in Hlen. rewrite Hlen in Hw. simpl in Hw.
    injection Hw as <-. split; reflexivity.
Qed.

(** C9.  [ServeHTTP] takes its panic branch exactly when the request path
    does not have [BasePath] as a prefix, and then it returns no response;
    on a path with the prefix, a pool with a codec returns a response. *)
Theorem ServeHTTP_panics (p : HTTPPool) (w : ResponseWriter) (r : Request) :
  (ServeHTTP p w r = Panics ("HTTPPool serving unexpected path: " +:+ Path r)
   <-> HasPrefix (Path r) (BasePath (opts p)) = false) /\
  (HasPrefix (Path r) (BasePath (opts p)) = false ->
   forall w', ServeHTTP p w r <> Returns w') /\
  (HasPrefix (Path r) (BasePath (opts p)) = true ->
   Codec_ (opts p) <> None -> exists w', ServeHTTP p w r = Returns w').
Proof.
  assert (Hno : HasPrefix (Path r) (BasePath (opts p)) = false ->
                ServeHTTP p w r = Panics ("HTTPPool serving unexpected path: " +:+ Path r)).
  { intros H. unfold HTTPPool_ServeHTTP. now rewrite H. }
  assert (Hyes : HasPrefix (Path r) (BasePath (opts p)) = true ->
                 (exists w', ServeHTTP p w r = Returns w') \/
                 ServeHTTP p w r = Panics nil_dereference /\ Codec_ (opts p) = None).
  { intros H. unfold HTTPPool_ServeHTTP. rewrite H. simpl.
    destruct (negb _); [eauto|].
    destruct (GetGroup _); [|eauto].
    destruct (Group_Get _ _); [|eauto].
    destruct (Codec_ (opts p)); [|now right].
    destruct (Encode _ _); eauto. }
  split; [split|split].
  - intros HP. destruct (HasPrefix _ _) eqn:E; [|reflexivity].
    destruct (Hyes eq_refl) as [[w' Hw]|[Hw _]]; rewrite Hw in HP; discriminate.
  - exact Hno.
  - intros H w'. rewrite (Hno H). discriminate.
  - intros H Hc. destruct (Hyes H) as [Hw|[_ Hn]]; [exact Hw | contradiction].
Qed.

End HandlerFacts.

(** ** The peer client *)

Lemma append_nil_r (a : string) : a +:+ "" = a.
Proof. induction a as [|x a IH]; simpl; [reflexivity | now rewrite IH]. Qed.

(** C4.  When the server's response has a status code other than 200,
    [httpGetter.Get] returns an error whose message is "server returned: "
    followed by the response status; when the status code is 200 the
    status check lets the response through: the result is decided by
    reading and decoding the body, and is never the status error. *)
Theorem httpGetter_Get_status (http_Get : string -> result Response)
        (h : httpGetter) (group key : string) (res : Response) :
  http_Get (request_URL h group key) = Ok res ->
  (StatusCode res <> 200 ->
     exists e, httpGetter_Get http_Get h group key = Err e /\
               Error e = "server returned: " +:+ Status res /\
               includes (Error e) (Status res)) /\
  (StatusCode res = 200 ->
     httpGetter_Get http_Get h group key <>
       Err (errorString ("server returned: " +:+ Status res)) /\
     httpGetter_Get http_Get h group key =
       match Body res with
       | Err err => Err (errorString ("reading response body: " +:+ Error err))
       | Ok body =>
           match decoder h body with
           | Err err => Err (errorString ("decoding response body: " +:+ Error err))
           | Ok view => Ok (ByteSlice view)
           end
       end /\
     (forall body view, Body res = Ok body -> decoder h body = Ok view ->
        httpGetter_Get http_Get h group key = Ok (ByteSlice view))).
Proof.
  intros Hres. unfold httpGetter_Get. rewrite Hres. split.
  - intros Hne. apply Z.eqb_neq in Hne. unfold StatusOK. rewrite Hne. simpl.
    eexists. split; [reflexivity|]. split; [reflexivity|].
    exists "server returned: ", "". simpl. now rewrite append_nil_r.
  - intros ->. simpl. split; [|split].
    + destruct (Body res) as [body|e]; [destruct (decoder h body)|]; discriminate.
    + reflexivity.
    + intros body view -> ->. reflexivity.
Qed.

(** ** The ring *)

Section RingFacts.

Import consistenthash.

Lemma insert_point_In pt q l : In q (insert_point pt l) <-> q = pt \/ In q l.
Proof.
  induction l as [|x l IH]; simpl.
  - intuition.
  - destruct (fst pt <? fst x); simpl; [intuition|]. rewrite IH. intuition.
Qed.

Lemma sort_points_In q l : In q (sort_points l) <-> In q l.
Proof.
  unfold sort_points.
  assert (H : forall acc, In q (foldl (fun acc pt => insert_point pt acc) acc l)
                          <-> In q acc \/ In q l).
  { induction l as [|x l IH]; intros acc; simpl; [intuition|].
    rewrite IH, insert_point_In. intuition. }
  rewrite H. simpl. intuition.
Qed.

Lemma points_In q h n peer : In q (points h n peer) -> snd q = peer.
Proof.
  unfold points. rewrite in_map_iff. intros (i & <- & _). reflexivity.
Qed.

Lemma consistenthash_Add_ring_In q replicas fn ps :
  In q (ring (Add (New replicas fn) ps)) -> In (snd q) ps.
Proof.
  unfold Add. simpl. rewrite sort_points_In, in_flat_map.
  intros (peer & Hp & Hq). apply points_In in Hq. now subst.
Qed.

(** The owner of a key is a point's peer, or the empty string on the
    empty ring. *)
Lemma Get_cases m key :
  (ring m = [] /\ Get m key = "") \/ (exists q, In q (ring m) /\ Get m key = snd q).
Proof.
  unfold Get. destruct (ring m) as [|first rest] eqn:E; [now left|right].
  destruct (find _ _) as [pt|] eqn:F.
  - apply find_some in F as [F _]. eauto.
  - exists first. split; [now left | reflexivity].
Qed.

Lemma Get_empty m key : ring m = [] -> Get m key = "".
Proof. unfold Get. now intros ->. Qed.

End RingFacts.

(** ** The pool *)

Lemma make_getters_lookup (basePath : string) (codec : Codec)
      (ps : list string) (peer : string) :
  In peer ps ->
  make_getters basePath codec ps !! peer
  = Some (mkhttpGetter (peer +:+ basePath) (Decode codec)).
Proof.
  unfold make_getters.
  assert (H : forall acc : gmap string httpGetter,
             (In peer ps \/
              acc !! peer = Some (mkhttpGetter (peer +:+ basePath) (Decode codec))) ->
             foldl (fun m peer =>
                      <[peer := mkhttpGetter (peer +:+ basePath) (Decode codec)]> m)
                   acc ps !! peer
             = Some (mkhttpGetter (peer +:+ basePath) (Decode codec))).
  { induction ps as [|x ps IH]; intros acc Hin; simpl.
    - destruct Hin as [[]|Hin]. exact Hin.
    - apply IH. destruct (decide (x = peer)) as [->|Hne].
      + right. apply lookup_insert_eq.
      + destruct Hin as [[Hx|Hin]|Hacc]; [contradiction | now left |].
        right. now rewrite lookup_insert_ne. }
  intros Hin. apply H. now left.
Qed.

Lemma make_getters_Some (basePath : string) (codec : Codec)
      (ps : list string) (peer : string) (g : httpGetter) :
  make_getters basePath codec ps !! peer = Some g ->
  g = mkhttpGetter (peer +:+ basePath) (Decode codec).
Proof.
  unfold make_getters.
  assert (H : forall acc : gmap string httpGetter,
             (forall g, acc !! peer = Some g ->
                        g = mkhttpGetter (peer +:+ basePath) (Decode codec)) ->
             foldl (fun m peer =>
                      <[peer := mkhttpGetter (peer +:+ basePath) (Decode codec)]> m)
                   acc ps !! peer = Some g ->
             g = mkhttpGetter (peer +:+ basePath) (Decode codec)).
  { induction ps as [|x ps IH]; intros acc Hacc; simpl.
    - apply Hacc.
    - apply IH. intros g'. destruct (decide (x = peer)) as [->|Hne].
      + rewrite lookup_insert_eq. now intros [= <-].
      + rewrite lookup_insert_ne by assumption. apply Hacc. }
  apply H. intros g'. rewrite lookup_empty. discriminate.
Qed.

Lemma NewHTTPPool_Codec (self : string) (o : HTTPPoolOptions) :
  Codec_ (opts (NewHTTPPool self o)) =
    Some (match Codec_ o with Some c => c | None => RawCodec end).
Proof.
  destruct o as [bp rep hf cd]. unfold NewHTTPPool. simpl.
  destruct (String.eqb bp ""); simpl; destruct (rep =? 0); simpl;
    destruct cd; reflexivity.
Qed.

Lemma NewHTTPPool_peers (self : string) (o : HTTPPoolOptions) :
  peers (NewHTTPPool self o) = None.
Proof. reflexivity. Qed.

Lemma Set_peers (p p' : HTTPPool) (ps : list string) :
  HTTPPool_Set p ps = Returns p' ->
  self p' = self p /\ opts p' = opts p /\
  peers p' = Some (consistenthash.Add
                     (consistenthash.New (Replicas (opts p)) (HashFn (opts p))) ps).
Proof.
  unfold HTTPPool_Set. destruct ps, (Codec_ (opts p)); intros [= <-]; auto.
Qed.

(** On a pool that [NewHTTPPool] returned and [Set] never touched,
    [PickPeer] calls [Get] through the nil ring: its outcome is the one of
    that call, whatever it is.  On a pool that [Set] has returned the nil
    receiver is not consulted and [PickPeer] returns. *)
Lemma PickPeer_before_Set (Get_nil : string -> outcome string)
      (self : string) (o : HTTPPoolOptions) (key : string) :
  HTTPPool_PickPeer Get_nil (NewHTTPPool self o) key =
    match Get_nil key with
    | Panics msg => Panics msg
    | Returns peer =>
        if negb (String.eqb peer "") && negb (String.eqb peer self)
        then Returns (None, true)
        else Returns (None, false)
    end.
Proof.
  unfold HTTPPool_PickPeer. simpl. destruct (Get_nil key); [|reflexivity].
  now rewrite lookup_empty.
Qed.

Lemma PickPeer_after_Set (Get_nil : string -> outcome string)
      (p p' : HTTPPool) (ps : list string) (key : string) :
  HTTPPool_Set p ps = Returns p' ->
  exists res, HTTPPool_PickPeer Get_nil p' key = Returns res.
Proof.
  intros HS. apply Set_peers in HS as (_ & _ & HS).
  unfold HTTPPool_PickPeer. rewrite HS. destruct (_ && _); eauto.
Qed.

(** C6.  On a pool that [Set] has returned, [PickPeer] returns the getter
    of the ring's owner of the key, with [true], exactly when that owner
    is neither the empty string nor the pool's own identifier; it returns
    [(nil, false)] when the owner is the pool itself or the ring is
    empty. *)
Theorem PickPeer_owner (Get_nil : string -> outcome string)
        (p0 p : HTTPPool) (ps : list string) (key : string) :
  HTTPPool_Set p0 ps = Returns p ->
  exists ring, peers p = Some ring /\
    let owner := consistenthash.Get ring key in
    (owner <> "" /\ owner <> self p ->
       exists g, HTTPPool_PickPeer Get_nil p key = Returns (Some g, true) /\
                 httpGetters p !! owner = Some g /\
                 baseURL g = owner +:+ BasePath (opts p)) /\
    (owner = "" \/ owner = self p ->
       HTTPPool_PickPeer Get_nil p key = Returns (None, false)) /\
    (consistenthash.ring ring = [] ->
       HTTPPool_PickPeer Get_nil p key = Returns (None, false)) /\
    ((exists g, HTTPPool_PickPeer Get_nil p key = Returns (g, true))
     <-> owner <> "" /\ owner <> self p).
Proof.
  intros HS. pose proof (Set_peers _ _ _ HS) as (Hself & Hopts & Hpeers).
  eexists. split; [exact Hpeers|].
  set (ring := consistenthash.Add _ _) in *. intros owner.
  assert (Hyes : owner <> "" /\ owner <> self p ->
                 HTTPPool_PickPeer Get_nil p key = Returns (httpGetters p !! owner, true)).
  { intros [H1 H2]. unfold HTTPPool_PickPeer. rewrite Hpeers. fold owner.
    apply String.eqb_neq in H1, H2. now rewrite H1, H2. }
  assert (Hno : owner = "" \/ owner = self p ->
                HTTPPool_PickPeer Get_nil p key = Returns (None, false)).
  { intros H. unfold HTTPPool_PickPeer. rewrite Hpeers. fold owner.
    destruct H as [H|H]; rewrite H; [reflexivity|].
    rewrite String.eqb_refl. now rewrite andb_false_r. }
  split; [|split; [exact Hno|split]].
  - intros Hown. rewrite (Hyes Hown).
    destruct (Get_cases ring key) as [[_ He]|(q & Hq & He)].
    { now destruct Hown as [Hown _]. }
    apply consistenthash_Add_ring_In in Hq. fold owner in He. rewrite <- He in Hq.
    unfold HTTPPool_Set in HS.
    destruct (Codec_ (opts p0)) as [codec|] eqn:Ec.
    + assert (Hg : httpGetters p = make_getters (BasePath (opts p0)) codec ps).
      { destruct ps; injection HS as <-; reflexivity. }
      rewrite Hg, (make_getters_lookup _ _ _ _ Hq), Hopts.
      eexists. repeat split.
    + destruct ps; [destruct Hq | discriminate].
  - intros Hr. apply Hno. left. now apply Get_empty.
  - split.
    + intros [g Hg]. destruct (String.eqb owner "") eqn:E1.
      { apply String.eqb_eq in E1. rewrite (Hno (or_introl E1)) in Hg. discriminate. }
      destruct (String.eqb owner (self p)) eqn:E2.
      { apply String.eqb_eq in E2. rewrite (Hno (or_intror E2)) in Hg. discriminate. }
      now apply String.eqb_neq in E1, E2.
    + intros Hown. rewrite (Hyes Hown). eauto.
Qed.

(** ** The request URL *)

Lemma occurs_append (c : ascii) (a b : string) :
  occurs c (a +:+ b) = occurs c a || occurs c b.
Proof.
  induction a as [|x a IH]; simpl; [reflexivity|].
  rewrite IH. now rewrite orb_assoc.
Qed.

Lemma escape_byte_no_slash (c : ascii) : occurs "/" (escape_byte c) = false.
Proof.
  destruct c as [[] [] [] [] [] [] [] []]; vm_compute; reflexivity.
Qed.

(** Decoding what [url.escape] wrote for one byte gives the byte back,
    except that a space comes back as "+". *)
Lemma percent_decode_escape_byte (c : ascii) (rest : string) :
  percent_decode (escape_byte c +:+ rest) =
    match percent_decode rest with
    | Some r => Some (String (if Ascii.eqb c " " then "+"%char else c) r)
    | None => None
    end.
Proof.
  destruct c as [[] [] [] [] [] [] [] []]; reflexivity.
Qed.

Lemma QueryEscape_no_slash (s : string) : occurs "/" (QueryEscape s) = false.
Proof.
  induction s as [|c s IH]; simpl; [reflexivity|].
  now rewrite occurs_append, escape_byte_no_slash, IH.
Qed.

Lemma percent_decode_QueryEscape (s : string) :
  percent_decode (QueryEscape s) = Some (plus_for_space s).
Proof.
  induction s as [|c s IH]; [reflexivity|].
  change (QueryEscape (String c s)) with (escape_byte c +:+ QueryEscape s).
  now rewrite percent_decode_escape_byte, IH.
Qed.

Lemma plus_for_space_id (s : string) : occurs " " s = false -> plus_for_space s = s.
Proof.
  induction s as [|c s IH]; simpl; [reflexivity|].
  intros H. apply orb_false_elim in H as [Hc Hs].
  rewrite Hc. now rewrite IH.
Qed.

(** X2.  The URL that the getter [Set] built for [peer] requests is the
    peer's base URL, [BasePath], the escaped group, "/", and the escaped
    key, where the escaping is [url.QueryEscape]: the escaped segments
    contain no "/" and percent-decode to the group and the key with every
    space replaced by "+", hence to the group and the key themselves when
    these contain no space. *)
Theorem request_URL_shape (p0 p : HTTPPool) (ps : list string) (peer : string)
        (g : httpGetter) (group key : string) :
  HTTPPool_Set p0 ps = Returns p ->
  httpGetters p !! peer = Some g ->
  request_URL g group key =
    peer +:+ BasePath (opts p) +:+ QueryEscape group +:+ "/" +:+ QueryEscape key /\
  (forall s, s = group \/ s = key ->
     occurs "/" (QueryEscape s) = false /\
     percent_decode (QueryEscape s) = Some (plus_for_space s) /\
     (occurs " " s = false -> percent_decode (QueryEscape s) = Some s)).
Proof.
  intros HS Hg. split.
  - pose proof (Set_peers _ _ _ HS) as (_ & Hopts & _).
    unfold HTTPPool_Set in HS.
    destruct (Codec_ (opts p0)) as [codec|].
    + assert (Hm : httpGetters p = make_getters (BasePath (opts p0)) codec ps).
      { destruct ps; injection HS as <-; reflexivity. }
      rewrite Hm in Hg. apply make_getters_Some in Hg. subst g.
      unfold request_URL. simpl. rewrite Hopts. apply append_assoc_s.
    + destruct ps; [|discriminate]. injection HS as <-. simpl in Hg.
      rewrite lookup_empty in Hg. discriminate.
  - intros s _. split; [apply QueryEscape_no_slash|].
    split; [apply percent_decode_QueryEscape|].
    intros Hs. rewrite percent_decode_QueryEscape. now rewrite plus_for_space_id.
Qed.

Lemma ServeHTTP_responses_witness :
  Codec_ (opts sample_pool) = Some RawCodec /\
  Path (mkRequest "GET" "/_yocache/scores/Tom")
    = BasePath (opts sample_pool) +:+ "scores/Tom" /\
  exists w,
    HTTPPool_ServeHTTP unit sample_GetGroup sample_Group_Get sample_pool
                       (newResponseWriter ∅) (mkRequest "GET" "/_yocache/scores/Tom")
      = Returns w /\
    status w = Some 200 /\
    Header w !! "Content-Type" = Some ["application/octet-stream"] /\
    body w = ["6"; "3"; "0"]%byte.
Proof.
  split; [reflexivity|]. split; [reflexivity|].
  refine (proj1 (proj2 (proj2 (proj2 (proj2 (proj2
    (ServeHTTP_responses unit sample_GetGroup sample_Group_Get sample_pool RawCodec ∅
       (mkRequest "GET" "/_yocache/scores/Tom") "scores/Tom" eq_refl eq_refl))))))
    "scores" "Tom" tt (mkByteView ["6"; "3"; "0"]%byte) ["6"; "3"; "0"]%byte
    eq_refl eq_refl eq_refl eq_refl).
Defined.

(** C3 as stated fails: after the base path, the path
    /_yocache/scores/a/b has three "/"-separated segments, not exactly
    two, and the handler does not answer 400: it splits at the first "/"
    only, looks the key "a/b" up in the group "scores", and answers 200
    with the encoded value. *)
Lemma ServeHTTP_three_segments :
  segments "scores/a/b" = ["scores"; "a"; "b"] /\
  length (segments "scores/a/b") <> 2%nat /\
  SplitN "scores/a/b" "/" 2 = ["scores"; "a/b"] /\
  exists w,
    HTTPPool_ServeHTTP unit sample_GetGroup echo_Group_Get sample_pool
                       (newResponseWriter ∅) (mkRequest "GET" "/_yocache/scores/a/b")
      = Returns w /\
    status w = Some 200 /\ status w <> Some 400 /\
    body w = list_byte_of_string "a/b".
Proof.
  split; [reflexivity|]. split; [vm_compute; discriminate|].
  split; [reflexivity|].
  eexists. split; [reflexivity|].
  split; [reflexivity|]. split; [discriminate | reflexivity].
Qed.

Lemma httpGetter_Get_status_witness :
  (fun _ : string => Ok not_found) (request_URL sample_getter "scores" "Tom")
    = Ok not_found /\
  exists e,
    httpGetter_Get (fun _ => Ok not_found) sample_getter "scores" "Tom" = Err e /\
    Error e = "server returned: 404 Not Found" /\
    includes (Error e) "404 Not Found".
Proof.
  split; [reflexivity|].
  refine (proj1 (httpGetter_Get_status (fun _ => Ok not_found) sample_getter
                   "scores" "Tom" not_found eq_refl) _).
  vm_compute. discriminate.
Defined.

Lemma PickPeer_owner_witness :
  HTTPPool_Set sample_pool sample_peers = Returns sample_pool_set /\
  exists ring, peers sample_pool_set = Some ring /\
    (consistenthash.Get ring "Tom" = "" \/
     consistenthash.Get ring "Tom" = self sample_pool_set ->
     HTTPPool_PickPeer (fun _ => Returns "") sample_pool_set "Tom" = Returns (None, false)) /\
    ((exists g, HTTPPool_PickPeer (fun _ => Returns "") sample_pool_set "Tom" = Returns (g, true))
     <-> consistenthash.Get ring "Tom" <> "" /\
         consistenthash.Get ring "Tom" <> self sample_pool_set).
Proof.
  split; [reflexivity|].
  destruct (PickPeer_owner (fun _ => Returns "") sample_pool sample_pool_set
                           sample_peers "Tom" eq_refl)
    as (ring & Hr & _ & Hno & _ & Hiff).
  exists ring. split; [exact Hr|]. split; [exact Hno | exact Hiff].
Defined.

Lemma request_URL_shape_witness :
  HTTPPool_Set sample_pool sample_peers = Returns sample_pool_set /\
  httpGetters sample_pool_set !! "http://localhost:8002" = Some sample_getter /\
  request_URL sample_getter "scores" "Tom Sawyer"
    = "http://localhost:8002" +:+ BasePath (opts sample_pool_set)
        +:+ QueryEscape "scores" +:+ "/" +:+ QueryEscape "Tom Sawyer".
Proof.
  split; [reflexivity|]. split; [vm_compute; reflexivity|].
  refine (proj1 (request_URL_shape sample_pool sample_pool_set sample_peers
                   "http://localhost:8002" sample_getter "scores" "Tom Sawyer"
                   eq_refl _)).
  vm_compute. reflexivity.
Defined.

(** C5, on the code.  For the key "Tom Sawyer" the getter requests
    ".../scores/Tom+Sawyer": the space is written as "+", which is not a
    percent-encoding, so the URL is not of the shape the claim gives.  The
    path percent-decodes to itself, and the handler that serves it looks
    up the key "Tom+Sawyer". *)
Theorem request_URL_not_percent_encoded :
  HTTPPool_Set sample_pool sample_peers = Returns sample_pool_set /\
  httpGetters sample_pool_set !! "http://localhost:8002" = Some sample_getter /\
  request_URL sample_getter "scores" "Tom Sawyer"
    = "http://localhost:8002" +:+ "/_yocache/scores/Tom+Sawyer" /\
  percent_decode "/_yocache/scores/Tom+Sawyer" = Some "/_yocache/scores/Tom+Sawyer" /\
  (exists w,
     HTTPPool_ServeHTTP unit sample_GetGroup echo_Group_Get sample_pool
                        (newResponseWriter ∅)
                        (mkRequest "GET" "/_yocache/scores/Tom+Sawyer") = Returns w /\
     status w = Some 200 /\
     body w = list_byte_of_string "Tom+Sawyer") /\
  ~ percent_encoded_URL (request_URL sample_getter "scores" "Tom Sawyer")
      (baseURL sample_getter) "scores" "Tom Sawyer".
Proof.
  split; [reflexivity|]. split; [vm_compute; reflexivity|].
  split; [reflexivity|]. split; [reflexivity|].
  split; [eexists; repeat split|].
  intros (g' & k' & Hu & Hg & Hk).
  change (request_URL sample_getter "scores" "Tom Sawyer")
    with (baseURL sample_getter +:+ "scores/Tom+Sawyer") in Hu.
  apply (inj (String.append _)) in Hu.
  do 6 (destruct g' as [|? g']; simpl in Hu; [discriminate|];
        injection Hu as <- Hu).
  destruct g' as [|? g']; simpl in Hu.
  - injection Hu as <-. vm_compute in Hk. discriminate.
  - injection Hu as <- Hu. simpl in Hg.
    destruct (percent_decode g'); discriminate.
Qed.

(** ** Bytes and little-endian words *)

Lemma Z_of_byte_range (x : byte) : 0 <= Z_of_byte x < 256.
Proof.
  unfold Z_of_byte. pose proof (Byte.to_N_bounded x) as H. lia.
Qed.

Lemma Z_of_byte_of_Z (z : Z) : Z_of_byte (byte_of_Z z) = z mod 256.
Proof.
  unfold Z_of_byte, byte_of_Z.
  assert (Hr : 0 <= z mod 256 < 256) by (apply Z.mod_pos_bound; lia).
  pose proof (Byte.to_of_N_option_map (Z.to_N (z mod 256))) as H.
  destruct (Byte.of_N (Z.to_N (z mod 256))) as [y|]; simpl in H.
  - destruct (Z.to_N (z mod 256) <=? 255)%N eqn:E; [|discriminate].
    injection H as ->. lia.
  - destruct (Z.to_N (z mod 256) <=? 255)%N eqn:E; [discriminate|].
    apply N.leb_gt in E. lia.
Qed.

Lemma lor_shiftl (a c n : Z) :
  0 <= n -> 0 <= a < 2 ^ n -> 0 <= c -> Z.lor a (Z.shiftl c n) = a + c * 2 ^ n.
Proof.
  intros Hn Ha Hc.
  assert (Hl : Z.land a (Z.shiftl c n) = 0).
  { apply Z.bits_inj'. intros i Hi. rewrite Z.land_spec, Z.bits_0.
    destruct (Z_lt_ge_dec i n) as [Hlt|Hge].
    - rewrite (Z.shiftl_spec_low c n i Hlt). apply andb_false_r.
    - destruct (Z.eq_dec a 0) as [->|Hne]; [now rewrite Z.bits_0|].
      rewrite (Z.bits_above_log2 a i); [reflexivity | lia |].
      assert (Z.log2 a < n) by (apply Z.log2_lt_pow2; lia). lia. }
  rewrite <- Z.lxor_lor, <- Z.add_nocarry_lxor by exact Hl.
  now rewrite Z.shiftl_mul_pow2.
Qed.

Lemma Uint16_PutUint16 (v : Z) :
  0 <= v < 65536 -> Uint16 (byte_of_Z v) (byte_of_Z (Z.shiftr v 8)) = v.
Proof.
  intros Hv. unfold Uint16. rewrite !Z_of_byte_of_Z.
  rewrite Z.shiftr_div_pow2 by lia.
  rewrite lor_shiftl; try lia.
  - change (2 ^ 8) with 256.
    rewrite (Z.mod_small (v / 256)) by (split; [apply Z.div_pos; lia | apply Z.div_lt_upper_bound; lia]).
    pose proof (Z.div_mod v 256). lia.
  - change (2 ^ 8) with 256. apply Z.mod_pos_bound. lia.
  - apply Z.mod_pos_bound. lia.
Qed.

Lemma Uint32_PutUint32 (v : Z) :
  0 <= v < 2 ^ 32 ->
  Uint32 (byte_of_Z v) (byte_of_Z (Z.shiftr v 8))
         (byte_of_Z (Z.shiftr v 16)) (byte_of_Z (Z.shiftr v 24)) = v.
Proof.
  intros Hv. unfold Uint32. rewrite !Z_of_byte_of_Z.
  rewrite !Z.shiftr_div_pow2 by lia.
  change (2 ^ 8) with 256. change (2 ^ 16) with 65536.
  change (2 ^ 24) with 16777216. change (2 ^ 32) with 4294967296 in Hv.
  assert (H0 : 0 <= v mod 256 < 256) by (apply Z.mod_pos_bound; lia).
  assert (H1 : 0 <= (v / 256) mod 256 < 256) by (apply Z.mod_pos_bound; lia).
  assert (H2 : 0 <= (v / 65536) mod 256 < 256) by (apply Z.mod_pos_bound; lia).
  assert (H3 : 0 <= (v / 16777216) mod 256 < 256) by (apply Z.mod_pos_bound; lia).
  rewrite (lor_shiftl (v mod 256) _ 8) by (change (2 ^ 8) with 256; lia).
  rewrite (Z.shiftl_mul_pow2 _ 24) by lia.
  replace (Z.shiftl ((v / 65536) mod 256) 16)
    with (Z.shiftl ((v / 65536) mod 256) 16 + 0) by lia.
  rewrite (Z.shiftl_mul_pow2 _ 16) by lia.
  replace (Z.lor (((v / 65536) mod 256) * 2 ^ 16 + 0) (((v / 16777216) mod 256) * 2 ^ 24))
    with (Z.shiftl (Z.lor ((v / 65536) mod 256) (Z.shiftl ((v / 16777216) mod 256) 8)) 16).
  2:{ rewrite Z.shiftl_lor, Z.shiftl_shiftl by lia.
      rewrite !Z.shiftl_mul_pow2 by lia. f_equal. lia. }
  rewrite (lor_shiftl ((v / 65536) mod 256) _ 8) by (change (2 ^ 8) with 256; lia).
  rewrite lor_shiftl; change (2 ^ 8) with 256; change (2 ^ 16) with 65536; try lia.
  clear H0 H1 H2 H3. Z.div_mod_to_equations. lia.
Qed.

(** ** DEFLATE stored blocks *)

Section FlateFacts.

Import flate.

Lemma writeStoredHeader_app (w : list byte) (n : N) (final : bool) :
  writeStoredHeader w n final = w ++ stored_header n final.
Proof. reflexivity. Qed.

Lemma lxor_ffff_range (n : Z) : 0 <= n < 65536 -> 0 <= Z.lxor n 0xffff < 65536.
Proof.
  intros Hn.
  assert (H0 : 0 <= Z.lxor n 0xffff) by (apply Z.lxor_nonneg; split; lia).
  split; [exact H0|].
  destruct (Z.eq_dec (Z.lxor n 0xffff) 0) as [->|Hne]; [lia|].
  change 65536 with (2 ^ 16). apply Z.log2_lt_pow2; [lia|].
  pose proof (Z.log2_lxor n 0xffff ltac:(lia) ltac:(lia)) as Hl.
  change (Z.log2 0xffff) with 15 in Hl.
  destruct (Z.eq_dec n 0) as [->|Hn0]; [now vm_compute|].
  assert (Z.log2 n < 16) by (apply Z.log2_lt_pow2; lia). lia.
Qed.

(** The decompressor on one stored block. *)
Lemma inflate_stored (fuel : nat) (blk rest : list byte) (off : Z)
      (out : list byte) (final : bool) :
  (N.of_nat (length blk) <= maxStoreBlockSize)%N ->
  inflate (S fuel) (stored_header (N.of_nat (length blk)) final ++ blk ++ rest) off out
  = if final then Some (Ok (out ++ blk, rest))
    else inflate fuel rest (off + 5 + Z.of_nat (length blk)) (out ++ blk).
Proof.
  intros Hlen. unfold maxStoreBlockSize in Hlen.
  assert (Hr : 0 <= Z.of_N (N.of_nat (length blk)) < 65536) by lia.
  pose proof (lxor_ffff_range _ Hr) as Hx.
  unfold stored_header, writeStoredHeader, PutUint16.
  change ([] ++ ?x) with x. cbn [app].
  set (hdr := if final then x01 else x00).
  assert (Hh : Z.land (Z.shiftr (Z_of_byte hdr) 1) 3 = 0) by (subst hdr; now destruct final).
  assert (Hf : Z.testbit (Z_of_byte hdr) 0 = final) by (subst hdr; now destruct final).
  cbn [inflate]. cbv zeta. rewrite Hh, Hf.
  change (0 =? 0) with true. cbv iota.
  rewrite !Uint16_PutUint16 by assumption.
  rewrite Z.eqb_refl. cbn [negb].
  assert (Hlt : (Z.of_nat (length (blk ++ rest)) <? Z.of_N (N.of_nat (length blk))) = false).
  { apply Z.ltb_ge. rewrite length_app. lia. }
  rewrite Hlt.
  replace (Z.to_nat (Z.of_N (N.of_nat (length blk)))) with (length blk) by lia.
  rewrite take_app_length, drop_app_length.
  replace (Z.of_N (N.of_nat (length blk))) with (Z.of_nat (length blk)) by lia.
  reflexivity.
Qed.

Lemma stored_blocks_app d1 e1 n1 d2 e2 n2 :
  stored_blocks d1 e1 n1 -> stored_blocks d2 e2 n2 ->
  stored_blocks (d1 ++ d2) (e1 ++ e2) (n1 + n2).
Proof.
  induction 1 as [|blk data enc n Hlen H IH]; intros H2; [exact H2|].
  specialize (IH H2). rewrite <- !app_assoc.
  change (S n + n2)%nat with (S (n + n2)).
  replace ((stored_header (N.of_nat (length blk)) false ++ blk ++ enc) ++ e2)
    with (stored_header (N.of_nat (length blk)) false ++ blk ++ enc ++ e2)
    by (now rewrite <- !app_assoc).
  now constructor.
Qed.

Lemma stored_blocks_one blk :
  (N.of_nat (length blk) <= maxStoreBlockSize)%N ->
  stored_blocks blk (stored_header (N.of_nat (length blk)) false ++ blk) 1.
Proof.
  intros H. pose proof (blocks_cons blk [] [] 0 H blocks_nil) as B.
  now rewrite !app_nil_r in B.
Qed.

Lemma stored_blocks_length data enc n :
  stored_blocks data enc n -> (5 * n <= length enc)%nat.
Proof.
  induction 1 as [|blk data enc n Hlen H IH]; [simpl; lia|].
  rewrite !length_app. change (length (stored_header _ false)) with 5%nat. lia.
Qed.

(** The decompressor reads through a sequence of non-final blocks. *)
Lemma inflate_blocks data enc n :
  stored_blocks data enc n ->
  forall fuel rest off out,
    inflate (n + fuel) (enc ++ rest) off out
    = inflate fuel rest (off + Z.of_nat (length enc)) (out ++ data).
Proof.
  induction 1 as [|blk data enc n Hlen H IH]; intros fuel rest off out.
  - simpl. now rewrite Z.add_0_r, app_nil_r.
  - change (S n + fuel)%nat with (S (n + fuel)).
    rewrite <- !app_assoc. rewrite (inflate_stored _ _ _ _ _ false Hlen).
    rewrite IH. f_equal.
    + rewrite !length_app. change (length (stored_header _ false)) with 5%nat. lia.
    + now rewrite app_assoc.
Qed.

End FlateFacts.

Section WriterFacts.

Import flate.

Lemma store_emits (sync : bool) (w : list byte) (d : compressor) :
  (windowEnd d <= maxStoreBlockSize)%N ->
  emits w d [] (fst (store sync w d)) (snd (store sync w d)) /\
  (sync = true -> window (snd (store sync w d)) = []) /\
  (sync = false -> (windowEnd (snd (store sync w d)) < maxStoreBlockSize)%N).
Proof.
  intros Hd. unfold store.
  destruct ((0 <? windowEnd d)%N && ((windowEnd d =? maxStoreBlockSize)%N || sync)) eqn:E;
    simpl.
  - split; [|split; [reflexivity | intros _; unfold windowEnd, maxStoreBlockSize; simpl; lia]].
    exists (window d), (stored_header (N.of_nat (length (window d))) false ++ window d), 1%nat.
    unfold writeStoredBlock. rewrite writeStoredHeader_app, <- app_assoc.
    split; [reflexivity|]. split; [now apply stored_blocks_one|].
    simpl. split; [reflexivity|]. unfold windowEnd, maxStoreBlockSize. simpl. lia.
  - split; [|split].
    + exists [], [], 0%nat. rewrite !app_nil_r. repeat split; [constructor | assumption].
    + intros ->. rewrite orb_true_r, andb_true_r in E.
      apply N.ltb_ge in E. unfold windowEnd in E.
      destruct (window d); [reflexivity | simpl in E; lia].
    + intros ->. rewrite orb_false_r in E.
      apply andb_false_iff in E as [E|E].
      * apply N.ltb_ge in E. unfold maxStoreBlockSize. lia.
      * apply N.eqb_neq in E. lia.
Qed.

Lemma emits_trans w d i1 w1 d1 i2 w2 d2 :
  emits w d i1 w1 d1 -> emits w1 d1 i2 w2 d2 -> emits w d (i1 ++ i2) w2 d2.
Proof.
  intros (da & ea & na & -> & Ba & Wa & _) (db & eb & nb & -> & Bb & Wb & Hb).
  exists (da ++ db), (ea ++ eb), (na + nb)%nat.
  split; [now rewrite app_assoc|]. split; [now apply stored_blocks_app|].
  split; [|exact Hb].
  rewrite <- app_assoc, Wb, !app_assoc. now rewrite Wa.
Qed.

Lemma write_loop_emits (fuel : nat) :
  forall (input w : list byte) (d : compressor),
    (length input <= fuel)%nat ->
    (windowEnd d <= maxStoreBlockSize)%N ->
    emits w d input (fst (write_loop fuel w d input)) (snd (write_loop fuel w d input)).
Proof.
  induction fuel as [|fuel IH]; intros input w d Hfuel Hd.
  - destruct input; [|simpl in Hfuel; lia].
    exists [], [], 0%nat. simpl. rewrite !app_nil_r. repeat split; [constructor|assumption].
  - destruct input as [|x input'] eqn:Ei.
    { exists [], [], 0%nat. simpl. rewrite !app_nil_r. repeat split; [constructor|assumption]. }
    rewrite <- Ei in *.
    assert (Hne : (0 < length input)%nat) by (rewrite Ei; simpl; lia).
    replace (write_loop (S fuel) w d input)
      with (write_loop fuel (fst (store false w d))
              (fst (fillStore (snd (store false w d)) input))
              (snd (fillStore (snd (store false w d)) input))).
    2:{ rewrite Ei. cbn [write_loop]. rewrite <- Ei.
        destruct (store false w d) as [w1 d1]. cbn [fst snd].
        destruct (fillStore d1 input) as [d2 b']. reflexivity. }
    destruct (store_emits false w d Hd) as (Hs & _ & Hlt). specialize (Hlt eq_refl).
    set (w1 := fst (store false w d)) in *. set (d1 := snd (store false w d)) in *.
    unfold fillStore. cbn [fst snd].
    set (k := N.to_nat (N.min (N.of_nat (length input)) (maxStoreBlockSize - windowEnd d1))).
    assert (Hk : (0 < k <= length input)%nat) by (unfold maxStoreBlockSize in *; lia).
    assert (Hfill : emits w1 d1 (take k input) w1 (mkCompressor (window d1 ++ take k input))).
    { exists [], [], 0%nat. rewrite app_nil_r. simpl.
      repeat split; [constructor|].
      unfold windowEnd in *. simpl. rewrite length_app, length_take.
      unfold maxStoreBlockSize in *. lia. }
    rewrite <- (take_drop k input) at 1.
    change (take k input ++ drop k input) with ([] ++ take k input ++ drop k input).
    eapply emits_trans; [exact Hs|].
    eapply emits_trans; [exact Hfill|].
    apply IH.
    + rewrite length_drop. lia.
    + destruct Hfill as (_ & _ & _ & _ & _ & _ & H). exact H.
Qed.

End WriterFacts.

(** ** CRC-32 stays within 32 bits *)


Lemma lxor_u32 (x y : Z) : u32 x -> u32 y -> u32 (Z.lxor x y).
Proof.
  unfold u32. intros Hx Hy.
  assert (H0 : 0 <= Z.lxor x y) by (apply Z.lxor_nonneg; split; lia).
  split; [exact H0|].
  destruct (Z.eq_dec (Z.lxor x y) 0) as [->|Hne]; [lia|].
  apply Z.log2_lt_pow2; [lia|].
  pose proof (Z.log2_lxor x y ltac:(lia) ltac:(lia)) as Hl.
  assert (Z.log2 x < 32).
  { destruct (Z.eq_dec x 0) as [->|?]; [now vm_compute | apply Z.log2_lt_pow2; lia]. }
  assert (Z.log2 y < 32).
  { destruct (Z.eq_dec y 0) as [->|?]; [now vm_compute | apply Z.log2_lt_pow2; lia]. }
  lia.
Qed.

Lemma shiftr_u32 (x n : Z) : 0 <= n -> u32 x -> u32 (Z.shiftr x n).
Proof.
  unfold u32. intros Hn Hx. rewrite Z.shiftr_div_pow2 by exact Hn.
  assert (0 < 2 ^ n) by (apply Z.pow_pos_nonneg; lia).
  split; [apply Z.div_pos; lia|].
  apply Z.le_lt_trans with x; [|lia].
  apply Z.div_le_upper_bound; nia.
Qed.

Lemma table_entry_u32 (i : Z) : u32 i -> u32 (crc32.table_entry i).
Proof.
  unfold crc32.table_entry. generalize 8%nat. intros k.
  induction k as [|k IH]; intros Hi; simpl; [exact Hi|].
  specialize (IH Hi). unfold crc32.table_step.
  destruct (Z.testbit _ 0).
  - apply lxor_u32; [apply shiftr_u32; [lia | exact IH] | now vm_compute].
  - apply shiftr_u32; [lia | exact IH].
Qed.

Lemma Update_u32 (crc : Z) (p : list byte) : u32 crc -> u32 (crc32.Update crc p).
Proof.
  intros Hc. unfold crc32.Update, crc32.not32.
  apply lxor_u32; [|now vm_compute].
  assert (H : u32 (Z.lxor crc 0xffffffff)) by (apply lxor_u32; [exact Hc | now vm_compute]).
  revert H. generalize (Z.lxor crc 0xffffffff). clear.
  induction p as [|x p IH]; intros c Hc; simpl; [exact Hc|].
  apply IH. unfold crc32.update_byte.
  apply lxor_u32; [|apply shiftr_u32; [lia | exact Hc]].
  apply table_entry_u32. unfold u32.
  change 0xff with (Z.ones 8). rewrite Z.land_ones by lia.
  pose proof (Z.mod_pos_bound (Z.lxor c (Z_of_byte x)) (2 ^ 8) ltac:(lia)).
  change (2 ^ 8) with 256 in *. lia.
Qed.

(** ** The gzip writer and reader *)

Section GzipFacts.

Import flate.

Lemma Write_no_error (z : gzip.Writer) (p : list byte) :
  gzip.err z = None -> snd (gzip.Write z p) = None.
Proof.
  intros H. unfold gzip.Write. rewrite H.
  now destruct (flate.write _ _ _).
Qed.

Lemma Flush_no_error (z : gzip.Writer) :
  gzip.err z = None -> snd (gzip.Flush z) = None.
Proof.
  intros H. unfold gzip.Flush. rewrite H.
  destruct (gzip.closed z); [reflexivity|].
  now destruct (flate.syncFlush _ _).
Qed.

Lemma Write_err (z : gzip.Writer) (p : list byte) :
  gzip.err z = None -> gzip.err (fst (gzip.Write z p)) = None.
Proof.
  intros H. unfold gzip.Write. rewrite H.
  now destruct (flate.write _ _ _).
Qed.

(** After [Write] and [Flush] the buffer holds the member header, the data
    in non-final stored blocks, and the sync marker; nothing is pending. *)
Lemma flushed_bytes (v : list byte) :
  exists enc n,
    stored_blocks v enc n /\
    gzip.w (flushed v) = gzip.header ++ enc ++ stored_header 0 false /\
    gzip.err (flushed v) = None /\
    gzip.closed (flushed v) = false /\
    gzip.wroteHeader (flushed v) = true /\
    flate.window (gzip.compressor (flushed v)) = [] /\
    gzip.digest (flushed v) = crc32.ChecksumIEEE v /\
    gzip.size (flushed v) = Z.of_nat (length v) mod 2 ^ 32.
Proof.
  unfold flushed, gzip.Write, gzip.NewWriter. cbn [gzip.err gzip.wroteHeader gzip.w
    gzip.compressor gzip.closed gzip.digest gzip.size].
  change ([] ++ gzip.header) with gzip.header.
  unfold flate.write.
  pose proof (write_loop_emits (length v) v gzip.header (flate.mkCompressor [])
                ltac:(lia) ltac:(now vm_compute)) as (d1 & e1 & n1 & Hw & B1 & W1 & H1).
  destruct (flate.write_loop (length v) gzip.header (flate.mkCompressor []) v)
    as [w2 d2]. cbn [fst snd] in *.
  unfold gzip.Flush. cbn [fst gzip.err gzip.wroteHeader gzip.w
    gzip.compressor gzip.closed gzip.digest gzip.size].
  unfold flate.syncFlush.
  destruct (store_emits true w2 d2 H1) as ((d3 & e3 & n3 & Hw3 & B3 & W3 & H3) & He & _).
  specialize (He eq_refl).
  destruct (flate.store true w2 d2) as [w3 d3']. cbn [fst snd] in *.
  cbn [fst gzip.err gzip.wroteHeader gzip.w
    gzip.compressor gzip.closed gzip.digest gzip.size].
  exists (e1 ++ e3), (n1 + n3)%nat.
  rewrite He, app_nil_r in W3. rewrite app_nil_r in W3. simpl in W1.
  split.
  { replace v with (d1 ++ d3) by (rewrite W3; exact W1).
    now apply stored_blocks_app. }
  split.
  { rewrite writeStoredHeader_app, Hw3, Hw. now rewrite <- !app_assoc. }
  repeat split; try reflexivity. exact He.
Qed.

Lemma Close_flushed (v : list byte) :
  gzip.w (fst (gzip.Close (flushed v)))
  = gzip.w (flushed v) ++ stored_header 0 true
      ++ PutUint32 (crc32.ChecksumIEEE v)
      ++ PutUint32 (Z.of_nat (length v) mod 2 ^ 32) /\
  snd (gzip.Close (flushed v)) = None.
Proof.
  destruct (flushed_bytes v) as (enc & n & _ & _ & He & Hc & Hh & Hw & Hd & Hs).
  unfold gzip.Close. rewrite He, Hc, Hh.
  unfold flate.close, flate.store, flate.windowEnd. rewrite Hw. simpl length.
  change ((0 <? N.of_nat 0)%N) with false. cbn [andb fst snd gzip.w].
  rewrite writeStoredHeader_app, Hd, Hs. now rewrite <- !app_assoc.
Qed.

(** What [GzipCodec.Encode] returns: the buffer as [Flush] left it. *)
Lemma GzipCodec_Encode_flushed (v : ByteView) :
  GzipCodec_Encode v = Ok (gzip.w (flushed (ByteSlice v))).
Proof.
  unfold GzipCodec_Encode.
  pose proof (Write_no_error (gzip.NewWriter []) (ByteSlice v) eq_refl) as H1.
  pose proof (Flush_no_error (fst (gzip.Write (gzip.NewWriter []) (ByteSlice v)))
                (Write_err (gzip.NewWriter []) (ByteSlice v) eq_refl)) as H2.
  pose proof (Close_flushed (ByteSlice v)) as [H3 _]. unfold flushed in *.
  destruct (gzip.Write (gzip.NewWriter []) (ByteSlice v)) as [z1 e1].
  cbn [fst snd] in *. subst e1.
  destruct (gzip.Flush z1) as [z2 e2]. cbn [fst snd] in *. subst e2.
  destruct (gzip.Close z2) as [z3 e3]. cbn [fst snd] in *.
  rewrite H3. now rewrite take_app_length.
Qed.

Lemma GzipCodec_Encode_closed_bytes (v : ByteView) :
  GzipCodec_Encode_closed v
  = Ok (gzip.w (flushed (ByteSlice v)) ++ stored_header 0 true
          ++ PutUint32 (crc32.ChecksumIEEE (ByteSlice v))
          ++ PutUint32 (Z.of_nat (length (ByteSlice v)) mod 2 ^ 32)).
Proof.
  unfold GzipCodec_Encode_closed.
  pose proof (Write_no_error (gzip.NewWriter []) (ByteSlice v) eq_refl) as H1.
  pose proof (Flush_no_error (fst (gzip.Write (gzip.NewWriter []) (ByteSlice v)))
                (Write_err (gzip.NewWriter []) (ByteSlice v) eq_refl)) as H2.
  pose proof (Close_flushed (ByteSlice v)) as [H3 H4]. unfold flushed in *.
  destruct (gzip.Write (gzip.NewWriter []) (ByteSlice v)) as [z1 e1].
  cbn [fst snd] in *. subst e1.
  destruct (gzip.Flush z1) as [z2 e2]. cbn [fst snd] in *. subst e2.
  destruct (gzip.Close z2) as [z3 e3]. cbn [fst snd] in *. subst e3.
  now rewrite H3.
Qed.

(** The decompressor does not run out of fuel, and a member it accepts
    has taken at least the five bytes of its final block. *)
Lemma inflate_fuel (fuel : nat) :
  forall r off out, (length r < fuel)%nat -> inflate fuel r off out <> None.
Proof.
  induction fuel as [|fuel IH]; intros r off out Hlen; [lia|].
  cbn [inflate]. destruct r as [|hdr r1]; [discriminate|]. cbv zeta.
  destruct (_ =? 0); [|destruct (_ =? 3); discriminate].
  destruct r1 as [|l0 [|l1 [|n0 [|n1 r2]]]]; try discriminate.
  destruct (negb _); [discriminate|].
  destruct (_ <? _); [discriminate|].
  destruct (Z.testbit _ 0); [discriminate|].
  apply IH. rewrite length_drop. simpl in Hlen. lia.
Qed.

Lemma inflate_consumes (fuel : nat) :
  forall r off out data rest,
    inflate fuel r off out = Some (Ok (data, rest)) ->
    (length rest + 5 <= length r)%nat.
Proof.
  induction fuel as [|fuel IH]; intros r off out data rest; [discriminate|].
  cbn [inflate]. destruct r as [|hdr r1]; [discriminate|]. cbv zeta.
  destruct (_ =? 0); [|destruct (_ =? 3); discriminate].
  destruct r1 as [|l0 [|l1 [|n0 [|n1 r2]]]]; try discriminate.
  destruct (negb _); [discriminate|].
  destruct (_ <? _); [discriminate|].
  destruct (Z.testbit _ 0).
  - intros [= _ <-]. rewrite length_drop. simpl. lia.
  - intros H. apply IH in H. rewrite length_drop in H. simpl. lia.
Qed.

Lemma readHeader_consumes (r rest : list byte) :
  gzip.readHeader r = Ok rest -> (length rest + 10 <= length r)%nat.
Proof.
  unfold gzip.readHeader.
  destruct r as [|? [|? [|? [|? [|? [|? [|? [|? [|? [|? r]]]]]]]]]]; try discriminate.
  destruct (negb _); [discriminate|]. destruct (negb _); [discriminate|].
  intros [= <-]. simpl. lia.
Qed.

Lemma read_members_fuel (fuel : nat) :
  forall r acc, (length r < fuel)%nat -> gzip.read_members fuel r acc <> None.
Proof.
  induction fuel as [|fuel IH]; intros r acc Hlen; [lia|].
  cbn [gzip.read_members].
  destruct (inflate (S (length r)) r 0 []) as [[[data r1]|e]|] eqn:E;
    [| discriminate | now apply inflate_fuel in E; [|lia]].
  apply inflate_consumes in E.
  destruct r1 as [|? [|? [|? [|? [|? [|? [|? [|? r2]]]]]]]]; try discriminate.
  destruct (negb _); [discriminate|].
  destruct (gzip.readHeader r2) as [r3|e] eqn:H; [|destruct e; discriminate].
  apply readHeader_consumes in H. apply IH. simpl in E. lia.
Qed.

(** [ReadAll] gives the result of reading the members. *)
Lemma ReadAll_total (z : gzip.Reader) :
  exists res, gzip.read_members (S (length (gzip.r z))) (gzip.r z) [] = Some res /\
              gzip.ReadAll z = res.
Proof.
  unfold gzip.ReadAll.
  destruct (gzip.read_members _ _ _) as [res|] eqn:E; [eauto|].
  now apply read_members_fuel in E; [|lia].
Qed.

Lemma readHeader_header (rest : list byte) :
  gzip.readHeader (gzip.header ++ rest) = Ok rest.
Proof. reflexivity. Qed.

(** A stream that ends after the sync marker: the decompressor looks for
    the next block header and finds the end of the input. *)
Lemma inflate_unclosed data enc n :
  stored_blocks data enc n ->
  flate.inflate (S (length (enc ++ stored_header 0 false)))
                (enc ++ stored_header 0 false) 0 []
  = Some (Err ErrUnexpectedEOF).
Proof.
  intros B. pose proof (stored_blocks_length _ _ _ B) as Hn.
  rewrite length_app. change (length (stored_header 0 false)) with 5%nat.
  replace (S (length enc + 5)) with (n + S (S (length enc + 4 - n)))%nat by lia.
  rewrite (inflate_blocks _ _ _ B).
  change (stored_header 0 false)
    with (stored_header (N.of_nat (length (@nil byte))) false ++ [] ++ []).
  rewrite inflate_stored by now vm_compute. reflexivity.
Qed.

(** A stream that [Close] has finished: the data and what follows the
    final block. *)
Lemma inflate_closed data enc n tail :
  stored_blocks data enc n ->
  flate.inflate
    (S (length (enc ++ stored_header 0 false ++ stored_header 0 true ++ tail)))
    (enc ++ stored_header 0 false ++ stored_header 0 true ++ tail) 0 []
  = Some (Ok (data, tail)).
Proof.
  intros B. pose proof (stored_blocks_length _ _ _ B) as Hn.
  rewrite !length_app. change (length (stored_header 0 false)) with 5%nat.
  change (length (stored_header 0 true)) with 5%nat.
  replace (S (length enc + (5 + (5 + length tail))))
    with (n + S (S (length enc + 9 + length tail - n)))%nat by lia.
  rewrite (inflate_blocks _ _ _ B).
  change (stored_header 0 false ++ stored_header 0 true ++ tail)
    with (stored_header (N.of_nat (length (@nil byte))) false ++ []
            ++ (stored_header (N.of_nat (length (@nil byte))) true ++ [] ++ tail)).
  rewrite inflate_stored by now vm_compute.
  rewrite inflate_stored by now vm_compute.
  now rewrite !app_nil_r.
Qed.

Lemma GzipCodec_Decode_unclosed data enc n :
  stored_blocks data enc n ->
  GzipCodec_Decode (gzip.header ++ enc ++ stored_header 0 false)
  = Err ErrUnexpectedEOF.
Proof.
  intros B. unfold GzipCodec_Decode, gzip.NewReader.
  rewrite readHeader_header. unfold gzip.ReadAll. cbn [gzip.r gzip.read_members].
  now rewrite (inflate_unclosed _ _ _ B).
Qed.

Lemma GzipCodec_Decode_closed data enc n :
  stored_blocks data enc n ->
  GzipCodec_Decode
    (gzip.header ++ enc ++ stored_header 0 false ++ stored_header 0 true
       ++ PutUint32 (crc32.ChecksumIEEE data)
       ++ PutUint32 (Z.of_nat (length data) mod 2 ^ 32))
  = Ok (mkByteView data).
Proof.
  intros B. unfold GzipCodec_Decode, gzip.NewReader.
  rewrite readHeader_header. unfold gzip.ReadAll. cbn [gzip.r gzip.read_members].
  rewrite (inflate_closed _ _ _ _ B).
  unfold PutUint32. cbn [app].
  rewrite !Uint32_PutUint32.
  - rewrite !Z.eqb_refl. reflexivity.
  - apply Z.mod_pos_bound. lia.
  - apply Update_u32. now vm_compute.
Qed.

(** ** The codecs *)

(** X1.  The Raw codec round-trips: decoding the encoding of a view
    succeeds and gives the view back. *)
Theorem RawCodec_roundtrip (v : ByteView) :
  exists enc, Encode RawCodec v = Ok enc /\ Decode RawCodec enc = Ok v.
Proof. exists (ByteSlice v). split; [reflexivity|]. now destruct v. Qed.

(** With [Close] run before the bytes are taken, decoding the encoding
    gives the view back. *)
Lemma GzipCodec_closed_roundtrip (v : ByteView) :
  exists enc, GzipCodec_Encode_closed v = Ok enc /\ GzipCodec_Decode enc = Ok v.
Proof.
  rewrite GzipCodec_Encode_closed_bytes. eexists. split; [reflexivity|].
  destruct (flushed_bytes (ByteSlice v)) as (enc & n & B & -> & _).
  rewrite <- !app_assoc. rewrite (GzipCodec_Decode_closed _ _ _ B).
  now destruct v.
Qed.

(** C1, on the code.  [GzipCodec.Encode] succeeds on every view, but the
    bytes it returns end with the sync marker of [Flush]: the final block
    and the trailer are written by the deferred [Close], after the returned
    slice has been taken.  [GzipCodec.Decode] fails on them with
    [io.ErrUnexpectedEOF], for every view. *)
Theorem GzipCodec_Decode_Encode_fails (v : ByteView) :
  exists enc, Encode GzipCodec v = Ok enc /\
              Decode GzipCodec enc = Err ErrUnexpectedEOF.
Proof.
  simpl. rewrite GzipCodec_Encode_flushed. eexists. split; [reflexivity|].
  destruct (flushed_bytes (ByteSlice v)) as (enc & n & B & -> & _).
  exact (GzipCodec_Decode_unclosed _ _ _ B).
Qed.

Example GzipCodec_empty :
  GzipCodec_Encode (mkByteView [])
  = Ok [x1f; x8b; x08; x00; x00; x00; x00; x00; x00; xff; x00; x00; x00; xff; xff] /\
  GzipCodec_Decode
    [x1f; x8b; x08; x00; x00; x00; x00; x00; x00; xff; x00; x00; x00; xff; xff]
  = Err ErrUnexpectedEOF.
Proof. split; vm_compute; reflexivity. Qed.

End GzipFacts.

(** ** Single-flight *)

Section DoFacts.

Import singleflight.

Context {V : Type}.
Variable zero : V.
Variable key : string.
Variable fn : nat -> V.

Local Abbreviation step := (singleflight.step zero key fn).
Local Abbreviation run := (singleflight.run zero key fn).
Local Abbreviation record := (singleflight.record zero).
Local Abbreviation leads := (singleflight.leads zero key fn).
Local Abbreviation follows := (singleflight.follows fn).
Local Abbreviation one_flight := (singleflight.one_flight zero key fn).
Local Abbreviation flight_inv := (singleflight.flight_inv zero key fn).

Lemma step_length t (st : @state V) : length (pool (step t st)) = length (pool st).
Proof.
  unfold singleflight.step.
  destruct (pool st !! t) as [[| |c|c|c|c|r sh]|]; simpl;
    rewrite ?length_insert; try reflexivity.
  - destruct (m st !! key); simpl; now rewrite length_insert.
  - destruct (done _); simpl; now rewrite ?length_insert.
Qed.

Lemma run_length s (st : @state V) : length (pool (run s st)) = length (pool st).
Proof.
  unfold singleflight.run. revert st.
  induction s as [|t s IH]; intros st; simpl; [reflexivity|].
  rewrite IH. apply step_length.
Qed.

(** A step of [t] leaves the other callers where they are. *)
Lemma step_other t i (st : @state V) :
  i <> t -> pool (step t st) !! i = pool st !! i.
Proof.
  intros Hne. unfold singleflight.step.
  destruct (pool st !! t) as [[| |c|c|c|c|r sh]|]; simpl;
    rewrite ?list_lookup_insert_ne by congruence; try reflexivity.
  - destruct (m st !! key); simpl; now rewrite list_lookup_insert_ne by congruence.
  - destruct (done _); simpl; now rewrite ?list_lookup_insert_ne by congruence.
Qed.

(** A caller that has returned stays as it is. *)
Lemma step_Returned t i r sh (st : @state V) :
  pool st !! i = Some (Returned r sh) ->
  pool (step t st) !! i = Some (Returned r sh).
Proof.
  intros H. destruct (decide (i = t)) as [->|Hne].
  - unfold singleflight.step. now rewrite H.
  - now rewrite step_other.
Qed.

Lemma step_entered t i p (st : @state V) :
  pool st !! i = Some p -> entered p = true ->
  exists p', pool (step t st) !! i = Some p' /\ entered p' = true.
Proof.
  intros H He. destruct (decide (i = t)) as [->|Hne].
  - assert (Hlt : (t < length (pool st))%nat) by (eapply lookup_lt_Some; eauto).
    unfold singleflight.step. rewrite H.
    destruct p as [| |c|c|c|c|r sh]; try discriminate; simpl;
      rewrite ?list_lookup_insert_eq by assumption; eauto.
    destruct (done _); simpl; rewrite ?list_lookup_insert_eq by assumption; eauto.
  - rewrite step_other by assumption. eauto.
Qed.

Lemma leads_frame (st st' : @state V) L c :
  pool st' !! L = pool st !! L -> heap st' = heap st ->
  calls st' = calls st -> m st' = m st ->
  leads st L c -> leads st' L c.
Proof. unfold singleflight.leads. now intros -> -> -> ->. Qed.

(** The invariant is kept by every step taken while the flight lasts. *)
Lemma step_flight_inv t (st : @state V) :
  flight_inv st -> enters_in_flight t st -> flight_inv (step t st).
Proof.
  intros Inv Hent.
  destruct (pool st !! t) as [p|] eqn:Ht.
  2:{ unfold singleflight.step. now rewrite Ht. }
  assert (Hlt : (t < length (pool st))%nat) by (eapply lookup_lt_Some; eauto).
  destruct Inv as [(Hall & Hcalls & Hm)|(L & c & Hlead & Hfol)].
  - (* nobody has entered *)
    destruct (Hall _ _ Ht) as [->| ->]; unfold singleflight.step; rewrite Ht.
    + left. repeat split; simpl; try assumption.
      intros i p Hi. apply list_lookup_insert_Some in Hi as [(_ & <- & _)|[_ Hi]]; eauto.
    + rewrite Hm. right. exists t, (length (heap st)). split.
      * unfold singleflight.leads. simpl. rewrite list_lookup_insert_eq by assumption.
        repeat split; try assumption.
        -- rewrite lookup_app_r by lia. now rewrite Nat.sub_diag.
        -- apply lookup_insert_eq.
      * simpl. intros i p Hne Hi. rewrite list_lookup_insert_ne in Hi by congruence.
        destruct (Hall _ _ Hi) as [->| ->]; unfold singleflight.follows; auto.
  - (* one flight *)
    right. destruct (decide (t = L)) as [->|Hne].
    + (* the leader moves *)
      unfold singleflight.leads in Hlead. rewrite Ht in Hlead.
      unfold singleflight.step. rewrite Ht.
      destruct p as [| |c'|c'|c'|c'|r sh]; try contradiction.
      * destruct Hlead as (-> & Hh & Hc & Hm).
        assert (Hcl : (c < length (heap st))%nat) by (eapply lookup_lt_Some; eauto).
        exists L, c. split.
        -- unfold singleflight.leads. simpl. rewrite list_lookup_insert_eq by assumption.
           rewrite Hc. repeat split; try assumption.
           now apply list_lookup_insert_eq.
        -- simpl. intros i p Hi Hp. rewrite list_lookup_insert_ne in Hp by congruence.
           eauto.
      * destruct Hlead as (-> & Hh & Hc & Hm).
        assert (Hcl : (c < length (heap st))%nat) by (eapply lookup_lt_Some; eauto).
        exists L, c. split.
        -- unfold singleflight.leads. simpl. rewrite list_lookup_insert_eq by assumption.
           repeat split; try assumption.
           unfold singleflight.record. rewrite Hh. simpl.
           now apply list_lookup_insert_eq.
        -- simpl. intros i p Hi Hp. rewrite list_lookup_insert_ne in Hp by congruence.
           eauto.
      * destruct Hlead as (-> & Hh & Hc & Hm).
        exists L, c. split.
        -- unfold singleflight.leads. simpl. rewrite list_lookup_insert_eq by assumption.
           unfold singleflight.record. rewrite Hh. simpl.
           repeat split; try assumption. apply lookup_delete_eq.
        -- simpl. intros i p Hi Hp. rewrite list_lookup_insert_ne in Hp by congruence.
           eauto.
      * exists L, c. split; [|exact Hfol].
        unfold singleflight.leads. rewrite Ht. exact Hlead.
    + (* a follower moves *)
      pose proof (Hfol _ _ Hne Ht) as Hp.
      assert (Hframe : forall p',
                 follows c p' ->
                 one_flight (mkState (m st) (heap st) (<[t := p']> (pool st)) (calls st))).
      { intros p' Hp'. exists L, c. split.
        - eapply leads_frame; [| | | |exact Hlead]; try reflexivity.
          simpl. now rewrite list_lookup_insert_ne by congruence.
        - simpl. intros i q Hi Hq.
          apply list_lookup_insert_Some in Hq as [(_ & <- & _)|[_ Hq]]; eauto. }
      unfold singleflight.step. rewrite Ht.
      destruct Hp as [->|[->|[->| ->]]].
      * apply Hframe. unfold singleflight.follows. auto.
      * (* the follower enters: the record is still in the map *)
        assert (Hm : m st !! key = Some c).
        { unfold singleflight.leads in Hlead.
          destruct (pool st !! L) as [[| |c'|c'|c'|c'|r [|]]|] eqn:HL;
            try contradiction; try (now destruct Hlead as (_ & _ & _ & H)).
          exfalso. apply Hent; eauto. }
        rewrite Hm. apply Hframe. unfold singleflight.follows. auto.
      * (* the follower waits on the leader's record *)
        destruct (done (record st c)) eqn:Hd; [|exists L, c; split; assumption].
        assert (Hv : val (record st c) = fn 0%nat).
        { unfold singleflight.leads in Hlead. unfold singleflight.record in *.
          destruct (pool st !! L) as [[| |c'|c'|c'|c'|r [|]]|] eqn:HL;
            try contradiction; destruct Hlead as (_ & Hh & _ & _);
            rewrite Hh in *; simpl in *; congruence. }
        rewrite Hv. apply Hframe. unfold singleflight.follows. auto.
      * exists L, c. split; assumption.
Qed.

End DoFacts.

Lemma forallb_lookup {A} (f : A -> bool) (l : list A) :
  forallb f l = true <-> forall i x, l !! i = Some x -> f x = true.
Proof.
  rewrite forallb_forall. split.
  - intros H i x Hi. apply H, list_elem_of_In, list_elem_of_lookup. eauto.
  - intros H x Hx. apply list_elem_of_In, list_elem_of_lookup in Hx as [i Hi]. eauto.
Qed.

Section DoTheorem.

Import singleflight.

Context {V : Type}.
Variable zero : V.
Variable key : string.
Variable fn : nat -> V.

Local Abbreviation step := (singleflight.step zero key fn).
Local Abbreviation run := (singleflight.run zero key fn).

Lemma run_snoc s t (st : @state V) : run (s ++ [t]) st = step t (run s st).
Proof. unfold singleflight.run. now rewrite foldl_app. Qed.

Lemma init_none_entered N : none_entered key (@init V N).
Proof.
  repeat split; try reflexivity.
  intros i p Hi. simpl in Hi. apply lookup_replicate in Hi as [-> _]. now left.
Qed.

Lemma step_no_delete t (st : @state V) : no_delete (step t st) -> no_delete st.
Proof.
  intros H i r Hi. apply (H i r). now apply step_Returned.
Qed.

(** Up to a state in which no record has been deleted, the runs from the
    initial state keep the invariant. *)
Lemma run_flight_inv N s :
  no_delete (run s (init N)) -> flight_inv zero key fn (run s (init N)).
Proof.
  induction s as [|t s IH] using rev_ind; intros Hnd.
  - left. apply init_none_entered.
  - rewrite run_snoc in *. pose proof (step_no_delete _ _ Hnd) as Hnd'.
    apply step_flight_inv; [now apply IH|].
    intros (L & r & HL). now destruct (Hnd' L r).
Qed.

(** Once every caller has entered, every run keeps the invariant. *)
Lemma run_entered s :
  forall st : @state V,
    flight_inv zero key fn st ->
    (forall i p, pool st !! i = Some p -> entered p = true) ->
    flight_inv zero key fn (run s st) /\
    (forall i p, pool (run s st) !! i = Some p -> entered p = true).
Proof.
  induction s as [|t s IH]; intros st Inv Hent; [now split|].
  change (run (t :: s) st) with (run s (step t st)).
  apply IH.
  - apply step_flight_inv; [exact Inv|].
    intros _ Ht. apply Hent in Ht. discriminate.
  - intros i p Hi. destruct (decide (i < length (pool st))%nat) as [Hlt|Hge].
    + destruct (lookup_lt_is_Some_2 _ _ Hlt) as [q Hq].
      destruct (step_entered zero key fn t i q st Hq (Hent _ _ Hq)) as (p' & Hp' & He).
      congruence.
    + apply lookup_lt_Some in Hi. rewrite step_length in Hi. lia.
Qed.

Lemma filter_none {A} (f : A -> bool) (l : list A) :
  (forall i x, l !! i = Some x -> f x = false) -> List.filter f l = [].
Proof.
  induction l as [|x l IH]; intros H; simpl; [reflexivity|].
  rewrite (H 0%nat x eq_refl). apply IH. intros i y Hi. exact (H (S i) y Hi).
Qed.

Lemma filter_one {A} (f : A -> bool) (l : list A) :
  forall L x,
    l !! L = Some x -> f x = true ->
    (forall i y, i <> L -> l !! i = Some y -> f y = false) ->
    length (List.filter f l) = 1%nat.
Proof.
  induction l as [|a l IH]; intros L x HL Hx Hrest; [discriminate|].
  destruct L as [|L]; simpl in *.
  - injection HL as ->. rewrite Hx. simpl. f_equal.
    rewrite filter_none; [reflexivity|].
    intros i y Hi. exact (Hrest (S i) y ltac:(lia) Hi).
  - rewrite (Hrest 0%nat a ltac:(lia) eq_refl).
    apply (IH L x HL Hx). intros i y Hne Hi.
    exact (Hrest (S i) y ltac:(lia) Hi).
Qed.

Lemma results_all (r : V) (l : list (@pc V)) :
  (forall i p, l !! i = Some p -> exists sh, p = Returned r sh) ->
  omap (fun p => match p with Returned r _ => Some r | _ => None end) l
  = replicate (length l) r.
Proof.
  induction l as [|p l IH]; intros H; simpl; [reflexivity|].
  destruct (H 0%nat p eq_refl) as [sh ->]. simpl. f_equal.
  apply IH. intros i q Hi. exact (H (S i) q Hi).
Qed.

Lemma forallb_false_lookup {A} (f : A -> bool) (l : list A) :
  forallb f l = false -> exists i x, l !! i = Some x /\ f x = false.
Proof.
  induction l as [|a l IH]; simpl; [discriminate|].
  destruct (f a) eqn:E; simpl.
  - intros H. destruct (IH H) as (i & x & Hi & Hx). now exists (S i), x.
  - intros _. now exists 0%nat, a.
Qed.

Lemma sum_list_insert (l : list nat) (t x y : nat) :
  l !! t = Some x -> (sum_list (<[t := y]> l) + x = sum_list l + y)%nat.
Proof.
  revert t. induction l as [|a l IH]; intros [|t] H; simpl in *; try discriminate.
  - injection H as ->. lia.
  - specialize (IH t H). lia.
Qed.

(** A caller that moves from [p] to [p'] changes the work by the
    difference of what remains for [p'] and for [p]. *)
Lemma work_insert (st st' : @state V) t p p' :
  pool st !! t = Some p -> pool st' = <[t := p']> (pool st) ->
  (work st' + remaining p = work st + remaining p')%nat.
Proof.
  intros Ht Hp. unfold work. rewrite Hp, list_fmap_insert.
  apply sum_list_insert. now rewrite list_lookup_fmap, Ht.
Qed.

(** Every step either leaves the state as it is (the caller waits on a
    held latch, or has returned) or reduces the work that remains. *)
Lemma step_work t (st : @state V) :
  step t st = st \/ (work (step t st) < work st)%nat.
Proof.
  unfold singleflight.step.
  destruct (pool st !! t) as [p|] eqn:Ht; [|now left].
  assert (Hw : forall st' p', pool st' = <[t := p']> (pool st) ->
                 (remaining p' < remaining p)%nat -> (work st' < work st)%nat).
  { intros st' p' Hp Hr. pose proof (work_insert st st' t p p' Ht Hp). lia. }
  destruct p as [| |c|c|c|c|r sh]; try (now left);
    try (right; eapply Hw; [reflexivity | simpl; lia]).
  - destruct (m st !! key); right; (eapply Hw; [reflexivity | simpl; lia]).
  - destruct (done _); [right; eapply Hw; [reflexivity | simpl; lia] | now left].
Qed.

(** While a caller that has entered has yet to return, some caller can
    move: the leader until it has returned, and then every waiter, the
    latch being released. *)
Lemma step_progress (st : @state V) :
  flight_inv zero key fn st ->
  (forall i p, pool st !! i = Some p -> entered p = true) ->
  all_returned st = false ->
  exists t, step t st <> st.
Proof.
  intros Inv Hent Hret.
  apply forallb_false_lookup in Hret as (i & p & Hi & Hp).
  assert (Hmoves : forall t q q',
            pool st !! t = Some q -> pool (step t st) !! t = Some q' -> q <> q' ->
            step t st <> st).
  { intros t q q' Hq Hq' Hne Heq. rewrite Heq in Hq'. congruence. }
  destruct Inv as [(Hall & _)|(L & c & Hlead & Hfol)].
  { pose proof (Hent _ _ Hi). destruct (Hall _ _ Hi) as [->| ->]; discriminate. }
  unfold singleflight.leads in Hlead.
  destruct (pool st !! L) as [pL|] eqn:HL; [|contradiction].
  assert (HLlt : (L < length (pool st))%nat) by (eapply lookup_lt_Some; eauto).
  destruct pL as [| |c'|c'|c'|c'|r [|]]; try contradiction.
  - exists L. eapply (Hmoves L _ (Releasing c') HL); [|discriminate].
    unfold singleflight.step. rewrite HL. simpl.
    now apply list_lookup_insert_eq.
  - exists L. eapply (Hmoves L _ (Deleting c') HL); [|discriminate].
    unfold singleflight.step. rewrite HL. simpl.
    now apply list_lookup_insert_eq.
  - exists L. eapply (Hmoves L _ (Returned (val (singleflight.record zero st c')) false) HL);
      [|discriminate].
    unfold singleflight.step. rewrite HL. simpl.
    now apply list_lookup_insert_eq.
  - (* the leader has returned: the latch is released *)
    destruct Hlead as (_ & Hh & _ & _).
    assert (Hne : i <> L).
    { intros ->. rewrite HL in Hi. injection Hi as <-. discriminate. }
    pose proof (Hent _ _ Hi) as He.
    assert (Hilt : (i < length (pool st))%nat) by (eapply lookup_lt_Some; eauto).
    destruct (Hfol _ _ Hne Hi) as [->|[->|[->| ->]]]; try discriminate.
    exists i. eapply (Hmoves i _ (Returned (fn 0%nat) true) Hi); [|discriminate].
    unfold singleflight.step, singleflight.record. rewrite Hi, Hh. simpl.
    now apply list_lookup_insert_eq.
Qed.

(** From every state of the flight in which all callers have entered, the
    callers can all return, in no more steps than the work that remains. *)
Lemma run_completes (n : nat) :
  forall st : @state V,
    (work st <= n)%nat ->
    flight_inv zero key fn st ->
    (forall i p, pool st !! i = Some p -> entered p = true) ->
    exists s, (length s <= work st)%nat /\ all_returned (run s st) = true.
Proof.
  induction n as [|n IH]; intros st Hn Inv Hent;
    (destruct (all_returned st) eqn:Hret; [exists []; split; [simpl; lia | exact Hret]|]);
    destruct (step_progress st Inv Hent Hret) as [t Ht];
    (destruct (step_work t st) as [Hs|Hs]; [contradiction|]).
  - lia.
  - destruct (run_entered [t] st Inv Hent) as [Inv' Hent'].
    change (run [t] st) with (step t st) in Inv', Hent'.
    destruct (IH (step t st) ltac:(lia) Inv' Hent') as (s & Hlen & Hs').
    exists (t :: s). split; [simpl; lia | exact Hs'].
Qed.

(** All callers can enter while the first call is in flight: each in turn
    calls [Do] and goes through the mutex, the first creates the record
    and the others find it. *)
Lemma enter_all N (k : nat) :
  (k <= N)%nat ->
  let st := run (flat_map (fun i => [i; i]) (seq 0 k)) (@init V N) in
  forall i p, pool st !! i = Some p ->
    if (i <? k)%nat then entered p = true /\ deleted p = false else p = Idle.
Proof.
  induction k as [|k IH]; intros Hk st i p Hi.
  - simpl in Hi. apply lookup_replicate in Hi as [-> _]. reflexivity.
  - subst st. rewrite seq_S, flat_map_app in Hi. simpl in Hi.
    unfold singleflight.run in Hi. rewrite foldl_app in Hi. simpl in Hi.
    fold (run (flat_map (fun i => [i; i]) (seq 0 k)) (@init V N)) in Hi.
    specialize (IH ltac:(lia)). cbv zeta in IH.
    set (st := run (flat_map (fun i => [i; i]) (seq 0 k)) (init N)) in *.
    assert (Hlen : length (pool st) = N).
    { unfold st. rewrite run_length. simpl. apply length_replicate. }
    destruct (lookup_lt_is_Some_2 (pool st) k ltac:(lia)) as [q Hq].
    pose proof (IH _ _ Hq) as Hqk. rewrite Nat.ltb_irrefl in Hqk. subst q.
    assert (H1 : step k st
                 = mkState (m st) (heap st) (<[k := Locking]> (pool st)) (calls st)).
    { unfold singleflight.step. now rewrite Hq. }
    destruct (decide (i = k)) as [->|Hne].
    + assert (E : (k <? S k)%nat = true) by (apply Nat.ltb_lt; lia).
      rewrite E. rewrite H1 in Hi. unfold singleflight.step in Hi. simpl in Hi.
      rewrite list_lookup_insert_eq in Hi by lia.
      destruct (m st !! key); simpl in Hi;
        rewrite list_lookup_insert_eq in Hi by (rewrite length_insert; lia);
        injection Hi as <-; now split.
    + rewrite !step_other in Hi by exact Hne.
      pose proof (IH _ _ Hi) as Hp.
      destruct (i <? k)%nat eqn:E.
      * apply Nat.ltb_lt in E.
        assert (E' : (i <? S k)%nat = true) by (apply Nat.ltb_lt; lia).
        now rewrite E'.
      * apply Nat.ltb_ge in E.
        assert (E' : (i <? S k)%nat = false) by (apply Nat.ltb_ge; lia).
        now rewrite E'.
Qed.

(** C2, as amended.  All [N >= 1] callers of [Do(key, fn)] can enter
    while the first call is in flight, and whenever they have (in a state
    [st1] every caller has been through the mutex and no call record has
    been deleted), then at every later moment [st2]: [fn] has been invoked
    at most once, every caller that has returned has received the result
    of that invocation, and at most one has observed [shared = false];
    every step that moves a caller reduces the work that remains, a state
    in which no caller can move is one in which all have returned, and
    the callers can all return within the work that remains; and once all
    have returned, [fn] has been invoked exactly once, all [N] callers
    have received the result of that invocation, and exactly one has
    observed [shared = false]. *)
Theorem Do_in_flight_once (N : nat) :
  (0 < N)%nat ->
  (exists s1, in_flight (run s1 (init N)) = true) /\
  forall s1 s2 : list nat,
    let st1 := run s1 (init N) in
    let st2 := run s2 st1 in
    in_flight st1 = true ->
    (calls st2 <= 1)%nat /\
    (unshared st2 <= 1)%nat /\
    (forall i r sh, pool st2 !! i = Some (Returned r sh) -> r = fn 0%nat) /\
    (forall t, step t st2 = st2 \/ (work (step t st2) < work st2)%nat) /\
    ((forall t, step t st2 = st2) -> all_returned st2 = true) /\
    (exists s3, (length s3 <= work st2)%nat /\ all_returned (run s3 st2) = true) /\
    (all_returned st2 = true ->
       calls st2 = 1%nat /\
       results st2 = replicate N (fn 0%nat) /\
       unshared st2 = 1%nat).
Proof.
  intros HN. split.
  { exists (flat_map (fun i => [i; i]) (seq 0 N)).
    pose proof (enter_all N N (le_n N)) as H. cbv zeta in H.
    unfold in_flight. apply andb_true_iff. split; apply forallb_lookup; intros i p Hi.
    - pose proof (H _ _ Hi) as Hp.
      assert (Hlt : (i < N)%nat).
      { apply lookup_lt_Some in Hi. rewrite run_length in Hi. simpl in Hi.
        now rewrite length_replicate in Hi. }
      apply Nat.ltb_lt in Hlt. rewrite Hlt in Hp. apply Hp.
    - pose proof (H _ _ Hi) as Hp.
      assert (Hlt : (i < N)%nat).
      { apply lookup_lt_Some in Hi. rewrite run_length in Hi. simpl in Hi.
        now rewrite length_replicate in Hi. }
      apply Nat.ltb_lt in Hlt. rewrite Hlt in Hp. destruct Hp as [_ ->]. reflexivity. }
  intros s1 s2 st1 st2 Hfl.
  unfold in_flight in Hfl. apply andb_true_iff in Hfl as [Hent Hnd].
  rewrite forallb_lookup in Hent, Hnd.
  assert (Hnd' : no_delete st1).
  { intros i r Hi. specialize (Hnd _ _ Hi). discriminate. }
  pose proof (run_flight_inv N s1 Hnd') as Inv1.
  destruct (run_entered s2 st1 Inv1 Hent) as [Inv2 Hent2].
  fold st2 in Inv2, Hent2.
  assert (Hlen : length (pool st2) = N).
  { unfold st2, st1. rewrite !run_length. simpl. apply length_replicate. }
  destruct (lookup_lt_is_Some_2 (pool st2) 0%nat ltac:(lia)) as [p0 Hp0].
  destruct Inv2 as [(Hall & _)|(L & c & Hlead & Hfol)].
  { pose proof (Hent2 _ _ Hp0). destruct (Hall _ _ Hp0) as [->| ->]; discriminate. }
  assert (Inv2 : flight_inv zero key fn st2).
  { right. exists L, c. split; assumption. }
  assert (Hfollower : forall i p, i <> L -> pool st2 !! i = Some p ->
                        p = Waiting c \/ p = Returned (fn 0%nat) true).
  { intros i p Hne Hp. pose proof (Hent2 _ _ Hp) as He.
    destruct (Hfol _ _ Hne Hp) as [->|[->|[->| ->]]]; try discriminate; auto. }
  unfold singleflight.leads in Hlead.
  destruct (pool st2 !! L) as [pL|] eqn:HL; [|contradiction].
  assert (Hcalls : (calls st2 <= 1)%nat).
  { destruct pL as [| |c'|c'|c'|c'|r [|]]; try contradiction;
      destruct Hlead as (_ & _ & -> & _); lia. }
  assert (Hdel : forall i p, i <> L -> pool st2 !! i = Some p -> deleted p = false).
  { intros i p Hne Hp. destruct (Hfollower _ _ Hne Hp) as [->| ->]; reflexivity. }
  split; [exact Hcalls|]. split; [|split; [|split; [|split; [|split]]]].
  - unfold unshared. destruct (deleted pL) eqn:Ed.
    + rewrite (filter_one _ _ L _ HL Ed Hdel). lia.
    + rewrite filter_none; [simpl; lia|].
      intros i p Hp. destruct (decide (i = L)) as [->|Hne]; [congruence | eauto].
  - intros i r sh Hi. destruct (decide (i = L)) as [->|Hne].
    + rewrite HL in Hi. injection Hi as ->.
      destruct sh; [contradiction|]. now destruct Hlead.
    + destruct (Hfollower _ _ Hne Hi) as [H|H]; [discriminate | congruence].
  - intros t. apply step_work.
  - intros Hstuck. destruct (all_returned st2) eqn:Hret; [reflexivity|].
    destruct (step_progress st2 Inv2 Hent2 Hret) as [t Ht].
    now destruct (Ht (Hstuck t)).
  - exact (run_completes (work st2) st2 (le_n _) Inv2 Hent2).
  - intros Hret. unfold all_returned in Hret. rewrite forallb_lookup in Hret.
    pose proof (Hret _ _ HL) as HrL.
    destruct pL as [| |c'|c'|c'|c'|r [|]]; try discriminate; try contradiction.
    destruct Hlead as (-> & _ & Hc1 & _).
    assert (Hothers : forall i p, i <> L -> pool st2 !! i = Some p ->
                                  p = Returned (fn 0%nat) true).
    { intros i p Hne Hp. pose proof (Hret _ _ Hp) as Hr.
      destruct (Hfollower _ _ Hne Hp) as [->| ->]; [discriminate | reflexivity]. }
    split; [exact Hc1|]. split.
    + unfold results. rewrite <- Hlen. apply results_all.
      intros i p Hp. destruct (decide (i = L)) as [->|Hne].
      * rewrite HL in Hp. injection Hp as <-. eauto.
      * rewrite (Hothers _ _ Hne Hp). eauto.
    + unfold unshared. apply (filter_one _ _ L _ HL eq_refl).
      intros i p Hne Hp. now rewrite (Hothers _ _ Hne Hp).
Qed.

End DoTheorem.

Lemma Do_in_flight_once_witness :
  let st1 := singleflight.run 0%nat "k" (fun n => n) [0; 1; 2; 0; 1; 2]%nat
                              (singleflight.init 3) in
  let st2 := singleflight.run 0%nat "k" (fun n => n) [0; 0; 1; 0; 2]%nat st1 in
  (0 < 3)%nat /\
  singleflight.in_flight st1 = true /\
  singleflight.all_returned st2 = true /\
  singleflight.calls st2 = 1%nat /\
  singleflight.results st2 = [0; 0; 0]%nat /\
  singleflight.unshared st2 = 1%nat.
Proof.
  split; [lia|]. split; [reflexivity|]. split; [reflexivity|].
  refine (proj2 (proj2 (proj2 (proj2 (proj2 (proj2
    (proj2 (Do_in_flight_once 0%nat "k" (fun n => n) 3 _)
           [0; 1; 2; 0; 1; 2]%nat [0; 0; 1; 0; 2]%nat eq_refl)))))) eq_refl).
  lia.
Defined.

(** C2 as stated fails.  Two callers, [fn n] returning [n]: both call
    [Do] (schedule 0, 1), so that the two calls are in progress at the
    same time ([st1]) while neither has been through the mutex.  Caller 0
    then goes through the mutex, finds no record, inserts one, invokes
    [fn], stores the result, releases the latch, deletes the record and
    returns (0, 0, 0, 0); only then caller 1 goes through the mutex,
    finds no record either, and does the same (1, 1, 1, 1).  [fn] has
    been invoked twice, the callers have received 0 and 1, and both have
    observed [shared = false]. *)
Lemma Do_concurrent_twice :
  let st1 := singleflight.run 0%nat "k" (fun n => n) [0; 1]%nat
                              (singleflight.init 2) in
  let st2 := singleflight.run 0%nat "k" (fun n => n)
                              [0; 0; 0; 0; 1; 1; 1; 1]%nat st1 in
  singleflight.concurrent st1 = true /\
  singleflight.all_returned st2 = true /\
  singleflight.calls st2 = 2%nat /\
  singleflight.results st2 = [0; 1]%nat /\
  singleflight.unshared st2 = 2%nat.
Proof. vm_compute. repeat split. Qed.

(** * Further properties of the code *)

(** ** The handler: messages and the parsing of the path *)

Lemma http_Error_response (h : gmap string (list string)) (msg : string) (code : Z) :
  error_response (http_Error (newResponseWriter h) msg code) msg code.
Proof.
  unfold error_response. split; [reflexivity|]. split; [reflexivity|].
  unfold http_Error, ResponseWriter_Write, WriteHeader, Header_Set, Header_Del.
  simpl. split; [|split].
  - rewrite lookup_insert_ne by discriminate. apply lookup_insert_eq.
  - apply lookup_insert_eq.
  - rewrite !lookup_insert_ne by discriminate. apply lookup_delete_eq.
Qed.

Lemma cut_join (sep : ascii) (g k : string) :
  occurs sep g = false -> cut sep (g +:+ String sep k) = Some (g, k).
Proof.
  induction g as [|c g IH]; simpl.
  - intros _. now rewrite Ascii.eqb_refl.
  - intros H. apply orb_false_elim in H as [Hc Hg].
    rewrite Hc. now rewrite IH.
Qed.

Lemma SplitN_join (g k : string) :
  occurs "/" g = false -> SplitN (g +:+ "/" +:+ k) "/" 2 = [g; k].
Proof.
  intros H. rewrite SplitN_2.
  change ("/" +:+ k) with (String "/" k). now rewrite cut_join.
Qed.

Section HandlerMore.

Variable Group : Type.
Variable GetGroup : string -> option Group.
Variable Group_Get : Group -> string -> result ByteView.

Local Abbreviation ServeHTTP := (HTTPPool_ServeHTTP Group GetGroup Group_Get).

(** The handler on a path made of [BasePath], a group name without "/",
    "/", and a key. *)
Lemma ServeHTTP_joined (p : HTTPPool) (w : ResponseWriter) (r : Request)
      (g k : string) :
  Path r = BasePath (opts p) +:+ g +:+ "/" +:+ k ->
  occurs "/" g = false ->
  ServeHTTP p w r =
    match GetGroup g with
    | None => Returns (http_Error w ("no such group: " +:+ g) StatusNotFound)
    | Some group =>
        match Group_Get group k with
        | Err err => Returns (http_Error w (Error err) StatusInternalServerError)
        | Ok view =>
            match Codec_ (opts p) with
            | None => Panics nil_dereference
            | Some codec =>
                match Encode codec view with
                | Err err =>
                    Returns (http_Error w (Error err) StatusInternalServerError)
                | Ok body =>
                    Returns (ResponseWriter_Write
                               (Header_Set w "Content-Type" "application/octet-stream")
                               body)
                end
            end
        end
    end.
Proof.
  intros HP Hg. rewrite (ServeHTTP_prefixed _ _ _ _ _ _ _ HP). cbv zeta.
  now rewrite (SplitN_join g k Hg).
Qed.

(** X3.  The error responses of [ServeHTTP] carry a plain-text message
    followed by a newline: "bad request" with 400 when what follows
    [BasePath] contains no "/", "no such group: " and the group name with
    404, and the message of the error with 500 when the group lookup or
    the codec's Encode fails. *)
Theorem ServeHTTP_error_messages (p : HTTPPool) (codec : Codec)
        (h : gmap string (list string)) (r : Request) (rest : string) :
  Codec_ (opts p) = Some codec ->
  Path r = BasePath (opts p) +:+ rest ->
  let out := ServeHTTP p (newResponseWriter h) r in
  (occurs "/" rest = false ->
     exists w, out = Returns w /\ error_response w "bad request" 400) /\
  (forall g k, cut "/" rest = Some (g, k) -> GetGroup g = None ->
     exists w, out = Returns w /\ error_response w ("no such group: " +:+ g) 404) /\
  (forall g k group e, cut "/" rest = Some (g, k) -> GetGroup g = Some group ->
     Group_Get group k = Err e ->
     exists w, out = Returns w /\ error_response w (Error e) 500) /\
  (forall g k group view e, cut "/" rest = Some (g, k) -> GetGroup g = Some group ->
     Group_Get group k = Ok view -> Encode codec view = Err e ->
     exists w, out = Returns w /\ error_response w (Error e) 500).
Proof.
  intros Hc HP out. subst out.
  rewrite (ServeHTTP_prefixed _ _ _ _ _ _ _ HP). cbv zeta.
  rewrite SplitN_2, Hc. repeat split.
  - intros Hno. destruct (cut "/" rest) as [[x y]|] eqn:E.
    + assert (Ht : occurs "/" rest = true) by (apply cut_occurs; eauto). congruence.
    + simpl. eexists. split; [reflexivity|]. apply http_Error_response.
  - intros g k -> Hg. simpl. rewrite Hg.
    eexists. split; [reflexivity|]. apply http_Error_response.
  - intros g k group e -> Hg He. simpl. rewrite Hg, He.
    eexists. split; [reflexivity|]. apply http_Error_response.
  - intros g k group view e -> Hg Hv He. simpl. rewrite Hg, Hv, He.
    eexists. split; [reflexivity|]. apply http_Error_response.
Qed.

(** X4.  [ServeHTTP] splits what follows [BasePath] at its first "/"
    only: on the path [BasePath], group, "/", key, with a group name that
    contains no "/", it looks up that group and that key, whatever the
    key is (it may be empty or contain "/"); on an unknown group the
    answer is 404, on a value that encodes the answer is 200 with the
    encoding as body. *)
Theorem ServeHTTP_group_key (p : HTTPPool) (codec : Codec)
        (h : gmap string (list string)) (r : Request) (g k : string) :
  Codec_ (opts p) = Some codec ->
  Path r = BasePath (opts p) +:+ g +:+ "/" +:+ k ->
  occurs "/" g = false ->
  let out := ServeHTTP p (newResponseWriter h) r in
  SplitN (g +:+ "/" +:+ k) "/" 2 = [g; k] /\
  (GetGroup g = None ->
     exists w, out = Returns w /\ error_response w ("no such group: " +:+ g) 404) /\
  (forall group e, GetGroup g = Some group -> Group_Get group k = Err e ->
     exists w, out = Returns w /\ error_response w (Error e) 500) /\
  (forall group view encoded, GetGroup g = Some group ->
     Group_Get group k = Ok view -> Encode codec view = Ok encoded ->
     exists w, out = Returns w /\ status w = Some 200 /\ body w = encoded /\
       Header w = <["Content-Type" := ["application/octet-stream"]]> h).
Proof.
  intros Hc HP Hg out. subst out.
  rewrite (ServeHTTP_joined _ _ _ _ _ HP Hg), Hc.
  split; [now apply SplitN_join|]. repeat split.
  - intros Hn. rewrite Hn. eexists. split; [reflexivity|]. apply http_Error_response.
  - intros group e Hs He. rewrite Hs, He.
    eexists. split; [reflexivity|]. apply http_Error_response.
  - intros group view encoded Hs Hv He. rewrite Hs, Hv, He.
    eexists. split; [reflexivity|]. repeat split.
Qed.

End HandlerMore.

(** ** The client's URL and the handler's path *)

Lemma percent_decode_plain_app (a rest : string) :
  occurs "%" a = false ->
  percent_decode (a +:+ rest) =
    match percent_decode rest with
    | Some r => Some (a +:+ r)
    | None => None
    end.
Proof.
  induction a as [|c a IH]; intros H.
  - simpl. now destruct (percent_decode rest).
  - simpl in H. apply orb_false_elim in H as [Hc Ha].
    change (String c a +:+ rest) with (String c (a +:+ rest)).
    cbn [percent_decode]. rewrite Hc, (IH Ha).
    now destruct (percent_decode rest).
Qed.

Lemma percent_decode_QueryEscape_app (s rest : string) :
  percent_decode (QueryEscape s +:+ rest) =
    match percent_decode rest with
    | Some r => Some (plus_for_space s +:+ r)
    | None => None
    end.
Proof.
  induction s as [|c s IH].
  - simpl. now destruct (percent_decode rest).
  - change (QueryEscape (String c s)) with (escape_byte c +:+ QueryEscape s).
    rewrite append_assoc_s, percent_decode_escape_byte, IH.
    now destruct (percent_decode rest).
Qed.

Section ClientServer.

Variable Group : Type.
Variable GetGroup : string -> option Group.
Variable Group_Get : Group -> string -> result ByteView.

Local Abbreviation ServeHTTP := (HTTPPool_ServeHTTP Group GetGroup Group_Get).

(** X5.  The client and the handler agree on groups and keys without
    spaces: for a group name without "/" and a [BasePath] without "%",
    what the getter of [peer] requests after the peer's address
    percent-decodes to [BasePath], group, "/", key, and [ServeHTTP] on
    that path looks up that group and that key (404 for an unknown group,
    200 with the encoded value for a value that encodes). *)
Theorem request_path_served (p : HTTPPool) (codec : Codec)
        (h : gmap string (list string)) (method peer : string)
        (dec : list byte -> result ByteView) (g k : string) :
  Codec_ (opts p) = Some codec ->
  occurs "%" (BasePath (opts p)) = false ->
  occurs "/" g = false ->
  occurs " " g = false ->
  occurs " " k = false ->
  exists rawpath path,
    request_URL (mkhttpGetter (peer +:+ BasePath (opts p)) dec) g k = peer +:+ rawpath /\
    percent_decode rawpath = Some path /\
    path = BasePath (opts p) +:+ g +:+ "/" +:+ k /\
    (GetGroup g = None ->
       exists w, ServeHTTP p (newResponseWriter h) (mkRequest method path) = Returns w /\
                 status w = Some 404) /\
    (forall group view encoded, GetGroup g = Some group ->
       Group_Get group k = Ok view -> Encode codec view = Ok encoded ->
       exists w, ServeHTTP p (newResponseWriter h) (mkRequest method path) = Returns w /\
                 status w = Some 200 /\ body w = encoded).
Proof.
  intros Hc Hbp Hg Hsg Hsk.
  exists (BasePath (opts p) +:+ QueryEscape g +:+ "/" +:+ QueryEscape k),
         (BasePath (opts p) +:+ g +:+ "/" +:+ k).
  split; [unfold request_URL; simpl; apply append_assoc_s|].
  split.
  { rewrite (percent_decode_plain_app _ _ Hbp), percent_decode_QueryEscape_app.
    change ("/" +:+ QueryEscape k) with (String "/" (QueryEscape k)).
    cbn [percent_decode]. change (Ascii.eqb "/" "%") with false. cbv iota.
    rewrite percent_decode_QueryEscape.
    now rewrite (plus_for_space_id g Hsg), (plus_for_space_id k Hsk). }
  split; [reflexivity|].
  rewrite (ServeHTTP_joined Group GetGroup Group_Get p (newResponseWriter h)
             (mkRequest method (BasePath (opts p) +:+ g +:+ "/" +:+ k)) g k
             eq_refl Hg), Hc.
  split.
  - intros Hn. rewrite Hn. eexists. split; reflexivity.
  - intros group view encoded H1 H2 H3. rewrite H1, H2, H3.
    eexists. repeat split.
Qed.

End ClientServer.

(** ** The peer client: results *)

(** X6.  [httpGetter.Get] returns bytes exactly when the transport gave a
    response with status code 200 whose body could be read and decoded,
    and the bytes are then those of the decoded view; a transport error is
    returned as it is, and a body that cannot be read or decoded gives an
    error that wraps the cause. *)
Theorem httpGetter_Get_results (http_Get : string -> result Response)
        (h : httpGetter) (group key : string) :
  (forall bs,
     httpGetter_Get http_Get h group key = Ok bs <->
     exists res body view,
       http_Get (request_URL h group key) = Ok res /\ StatusCode res = 200 /\
       Body res = Ok body /\ decoder h body = Ok view /\ bs = ByteSlice view) /\
  (forall e, http_Get (request_URL h group key) = Err e ->
     httpGetter_Get http_Get h group key = Err e) /\
  (forall res e, http_Get (request_URL h group key) = Ok res ->
     StatusCode res = 200 -> Body res = Err e ->
     httpGetter_Get http_Get h group key
     = Err (errorString ("reading response body: " +:+ Error e))) /\
  (forall res body e, http_Get (request_URL h group key) = Ok res ->
     StatusCode res = 200 -> Body res = Ok body -> decoder h body = Err e ->
     httpGetter_Get http_Get h group key
     = Err (errorString ("decoding response body: " +:+ Error e))).
Proof.
  unfold httpGetter_Get. split; [|split; [|split]].
  - intros bs. split.
    + destruct (http_Get _) as [res|e]; [|discriminate].
      destruct (StatusCode res =? StatusOK) eqn:Es; simpl; [|discriminate].
      apply Z.eqb_eq in Es.
      destruct (Body res) as [body|e] eqn:Eb; [|discriminate].
      destruct (decoder h body) as [view|e] eqn:Ed; [|discriminate].
      intros [= <-]. exists res, body, view. auto.
    + intros (res & body & view & -> & Hs & -> & Hd & ->).
      rewrite Hs. simpl. now rewrite Hd.
  - now intros e ->.
  - intros res e -> -> ->. reflexivity.
  - intros res body e -> -> -> ->. reflexivity.
Qed.

Lemma GzipCodec_Decode_of_Encode (v : ByteView) (enc : list byte) :
  GzipCodec_Encode v = Ok enc -> GzipCodec_Decode enc = Err ErrUnexpectedEOF.
Proof.
  rewrite GzipCodec_Encode_flushed. intros [= <-].
  destruct (flushed_bytes (ByteSlice v)) as (enc & n & B & -> & _).
  exact (GzipCodec_Decode_unclosed _ _ _ B).
Qed.

Lemma Set_getters (p p' : HTTPPool) (ps : list string) (codec : Codec) :
  Codec_ (opts p) = Some codec ->
  HTTPPool_Set p ps = Returns p' ->
  httpGetters p' = make_getters (BasePath (opts p)) codec ps.
Proof.
  unfold HTTPPool_Set. intros ->. destruct ps; intros [= <-]; reflexivity.
Qed.

(** X7.  A pool whose codec is the Gzip codec cannot fetch from its peers:
    when the response to a getter that [Set] built has status code 200 and
    the body that [GzipCodec.Encode] gives for a view, [httpGetter.Get]
    fails with "decoding response body: unexpected EOF". *)
Theorem Gzip_peer_fetch_fails (p0 p : HTTPPool) (ps : list string) (peer : string)
        (h : httpGetter) (http_Get : string -> result Response)
        (group key : string) (v : ByteView) (enc : list byte) (res : Response) :
  Codec_ (opts p0) = Some GzipCodec ->
  HTTPPool_Set p0 ps = Returns p ->
  httpGetters p !! peer = Some h ->
  http_Get (request_URL h group key) = Ok res ->
  StatusCode res = 200 ->
  Encode GzipCodec v = Ok enc ->
  Body res = Ok enc ->
  httpGetter_Get http_Get h group key
  = Err (errorString "decoding response body: unexpected EOF").
Proof.
  intros Hc HS Hh Hres Hst Henc Hb.
  rewrite (Set_getters _ _ _ _ Hc HS) in Hh. apply make_getters_Some in Hh. subst h.
  unfold httpGetter_Get. rewrite Hres, Hst, Hb. simpl.
  now rewrite (GzipCodec_Decode_of_Encode _ _ Henc).
Qed.

Lemma Gzip_peer_fetch_fails_witness :
  httpGetter_Get
    (fun _ => Ok (ok_response
                    (match GzipCodec_Encode tom with Ok enc => enc | Err _ => [] end)))
    gzip_getter "scores" "Tom"
  = Err (errorString "decoding response body: unexpected EOF").
Proof.
  apply (Gzip_peer_fetch_fails gzip_pool gzip_pool_set sample_peers
           "http://localhost:8002" gzip_getter _ "scores" "Tom" tom
           (match GzipCodec_Encode tom with Ok enc => enc | Err _ => [] end)
           (ok_response
              (match GzipCodec_Encode tom with Ok enc => enc | Err _ => [] end)));
    try reflexivity.
  all: vm_compute; reflexivity.
Defined.

(** X8.  With the default codec the peer's bytes come back unchanged: a
    getter that [Set] built on a pool made by [NewHTTPPool] without a
    codec returns the body of every response with status code 200. *)
Theorem default_peer_fetch (addr : string) (o : HTTPPoolOptions) (p : HTTPPool)
        (ps : list string) (peer : string) (h : httpGetter)
        (http_Get : string -> result Response) (group key : string)
        (res : Response) (body : list byte) :
  Codec_ o = None ->
  HTTPPool_Set (NewHTTPPool addr o) ps = Returns p ->
  httpGetters p !! peer = Some h ->
  http_Get (request_URL h group key) = Ok res ->
  StatusCode res = 200 ->
  Body res = Ok body ->
  httpGetter_Get http_Get h group key = Ok body.
Proof.
  intros Ho HS Hh Hres Hst Hb.
  pose proof (NewHTTPPool_Codec addr o) as Hc. rewrite Ho in Hc.
  rewrite (Set_getters _ _ _ _ Hc HS) in Hh. apply make_getters_Some in Hh. subst h.
  unfold httpGetter_Get. rewrite Hres, Hst, Hb. reflexivity.
Qed.

Lemma default_peer_fetch_witness :
  httpGetter_Get (fun _ => Ok (ok_response (b tom))) sample_getter "scores" "Tom"
  = Ok (b tom).
Proof.
  apply (default_peer_fetch "http://localhost:8001" sample_opts sample_pool_set
           sample_peers "http://localhost:8002" sample_getter _ "scores" "Tom"
           (ok_response (b tom)) (b tom)); try reflexivity.
  all: vm_compute; reflexivity.
Defined.

(** ** The pool: construction and peers *)

(** X9.  [NewHTTPPool] keeps the address and every option that is not
    blank, and fills the blank ones: an empty [BasePath] becomes
    "/_yocache/", zero [Replicas] become 50, a nil codec becomes the Raw
    codec.  So the options of the pool never have an empty [BasePath],
    zero [Replicas] or a nil codec; the pool starts with a nil ring and no
    getters, and its options are a fixed point of the defaulting. *)
Theorem NewHTTPPool_defaults (addr : string) (o : HTTPPoolOptions) :
  let p := NewHTTPPool addr o in
  self p = addr /\ peers p = None /\ httpGetters p = ∅ /\
  BasePath (opts p)
    = (if String.eqb (BasePath o) "" then "/_yocache/" else BasePath o) /\
  Replicas (opts p) = (if Replicas o =? 0 then 50 else Replicas o) /\
  HashFn (opts p) = HashFn o /\
  Codec_ (opts p) = Some (default RawCodec (Codec_ o)) /\
  BasePath (opts p) <> "" /\ Replicas (opts p) <> 0 /\ Codec_ (opts p) <> None /\
  NewHTTPPool addr (opts p) = p.
Proof.
  destruct o as [bp rep hf cd]. unfold NewHTTPPool. simpl.
  destruct (String.eqb bp "") eqn:Eb; simpl;
    destruct (rep =? 0) eqn:Er; simpl;
    destruct cd as [c|]; simpl;
    rewrite ?Eb, ?Er; simpl;
    repeat split; try discriminate;
    try (apply String.eqb_neq in Eb; exact Eb);
    try (apply Z.eqb_neq in Er; exact Er);
    simpl; rewrite ?Eb, ?Er; simpl; rewrite ?Eb, ?Er; reflexivity.
Qed.

Lemma make_getters_In (basePath : string) (codec : Codec)
      (ps : list string) (peer : string) :
  is_Some (make_getters basePath codec ps !! peer) -> In peer ps.
Proof.
  unfold make_getters.
  assert (H : forall acc : gmap string httpGetter,
             is_Some (foldl (fun m peer =>
                        <[peer := mkhttpGetter (peer +:+ basePath) (Decode codec)]> m)
                      acc ps !! peer) ->
             In peer ps \/ is_Some (acc !! peer)).
  { induction ps as [|x ps IH]; intros acc Hs; simpl in *; [now right|].
    destruct (IH _ Hs) as [Hin|Hacc]; [left; now right|].
    destruct (decide (x = peer)) as [->|Hne]; [left; now left|].
    rewrite lookup_insert_ne in Hacc by assumption. now right. }
  intros Hs. destruct (H _ Hs) as [Hin|Hacc]; [exact Hin|].
  rewrite lookup_empty in Hacc. now destruct Hacc.
Qed.

(** X10.  [Set] replaces the peers: what it returns depends on the pool's
    address and options and on the new list only, so a second [Set]
    discards what the first one installed; the pool's address and options
    are kept, and the getters are those of the listed peers and no
    others, each with the base URL peer, [BasePath]. *)
Theorem Set_replaces (p p1 : HTTPPool) (ps1 ps2 : list string) :
  HTTPPool_Set p ps1 = Returns p1 ->
  HTTPPool_Set p1 ps2 = HTTPPool_Set p ps2 /\
  self p1 = self p /\ opts p1 = opts p /\
  (forall peer, is_Some (httpGetters p1 !! peer) <-> In peer ps1) /\
  (forall peer g, httpGetters p1 !! peer = Some g ->
     baseURL g = peer +:+ BasePath (opts p)).
Proof.
  intros HS. pose proof (Set_peers _ _ _ HS) as (Hself & Hopts & _).
  split; [unfold HTTPPool_Set; now rewrite Hself, Hopts|].
  split; [exact Hself|]. split; [exact Hopts|].
  destruct (Codec_ (opts p)) as [codec|] eqn:Ec.
  - rewrite (Set_getters _ _ _ _ Ec HS). split.
    + intros peer. split; [apply make_getters_In|].
      intros Hin. rewrite (make_getters_lookup _ _ _ _ Hin). eauto.
    + intros peer g Hg. apply make_getters_Some in Hg. now subst g.
  - unfold HTTPPool_Set in HS. rewrite Ec in HS.
    destruct ps1; [|discriminate]. injection HS as <-. simpl. split.
    + intros peer. rewrite lookup_empty. split; [now intros [? ?] | intros []].
    + intros peer g. rewrite lookup_empty. discriminate.
Qed.

Lemma Set_replaces_witness :
  HTTPPool_Set sample_pool ["http://localhost:8009"] = Returns
    (match HTTPPool_Set sample_pool ["http://localhost:8009"] with
     | Returns p => p
     | Panics _ => sample_pool
     end) /\
  HTTPPool_Set
    (match HTTPPool_Set sample_pool ["http://localhost:8009"] with
     | Returns p => p
     | Panics _ => sample_pool
     end) sample_peers
  = HTTPPool_Set sample_pool sample_peers.
Proof.
  split; [reflexivity|].
  refine (proj1 (Set_replaces sample_pool _ ["http://localhost:8009"] sample_peers _)).
  reflexivity.
Defined.

(** X11.  On a pool that [Set] has returned, [PickPeer] answers [true]
    only with the getter of a peer of the list given to [Set] that is
    neither the empty string nor the pool's own address, never with a nil
    getter; it answers [false] only with nil; and when every listed
    peer is the pool itself it answers [(nil, false)] for every key. *)
Theorem PickPeer_listed (Get_nil : string -> outcome string)
        (p0 p : HTTPPool) (ps : list string) (key : string) :
  HTTPPool_Set p0 ps = Returns p ->
  (forall g, HTTPPool_PickPeer Get_nil p key = Returns (g, true) ->
     exists peer codec,
       In peer ps /\ peer <> "" /\ peer <> self p /\
       Codec_ (opts p) = Some codec /\
       g = Some (mkhttpGetter (peer +:+ BasePath (opts p)) (Decode codec))) /\
  (forall g, HTTPPool_PickPeer Get_nil p key = Returns (g, false) -> g = None) /\
  ((forall peer, In peer ps -> peer = self p) ->
   HTTPPool_PickPeer Get_nil p key = Returns (None, false)).
Proof.
  intros HS. pose proof (Set_peers _ _ _ HS) as (Hself & Hopts & Hpeers).
  unfold HTTPPool_PickPeer. rewrite Hpeers.
  set (ring := consistenthash.Add _ _).
  assert (Hin : consistenthash.Get ring key = "" \/
                In (consistenthash.Get ring key) ps).
  { destruct (Get_cases ring key) as [[_ He]|(q & Hq & He)]; [now left|right].
    rewrite He. now apply consistenthash_Add_ring_In in Hq. }
  set (owner := consistenthash.Get ring key) in *.
  destruct (String.eqb owner "") eqn:E1; simpl.
  { repeat split; try discriminate; try (now intros g [= <-]). }
  destruct (String.eqb owner (self p)) eqn:E2; simpl.
  { repeat split; try discriminate; try (now intros g [= <-]). }
  apply String.eqb_neq in E1, E2.
  destruct Hin as [Hin|Hin]; [contradiction|].
  split; [|split].
  - intros g [= <-]. unfold HTTPPool_Set in HS.
    destruct (Codec_ (opts p0)) as [codec|] eqn:Ec.
    + assert (Hg : httpGetters p = make_getters (BasePath (opts p0)) codec ps).
      { destruct ps; injection HS as <-; reflexivity. }
      exists owner, codec. rewrite Hg, (make_getters_lookup _ _ _ _ Hin), Hopts.
      repeat split; assumption.
    + destruct ps; [destruct Hin | discriminate].
  - discriminate.
  - intros Hall. now destruct (E2 (Hall _ Hin)).
Qed.

Lemma PickPeer_listed_witness :
  HTTPPool_Set sample_pool ["http://localhost:8001"] = Returns
    (match HTTPPool_Set sample_pool ["http://localhost:8001"] with
     | Returns p => p
     | Panics _ => sample_pool
     end) /\
  HTTPPool_PickPeer (fun _ => Returns "")
    (match HTTPPool_Set sample_pool ["http://localhost:8001"] with
     | Returns p => p
     | Panics _ => sample_pool
     end) "Tom" = Returns (None, false).
Proof.
  split; [reflexivity|].
  refine (proj2 (proj2 (PickPeer_listed (fun _ => Returns "") sample_pool _
                          ["http://localhost:8001"] "Tom" _)) _).
  - reflexivity.
  - intros peer [<-|[]]. reflexivity.
Defined.

(** ** The Gzip codec: headers and complete streams *)

Lemma Z_of_byte_inj (x y : byte) : Z_of_byte x = Z_of_byte y -> x = y.
Proof.
  unfold Z_of_byte. intros H. apply N2Z.inj in H.
  pose proof (Byte.of_to_N x) as Hx. rewrite H, Byte.of_to_N in Hx.
  now injection Hx.
Qed.

(** X12.  [GzipCodec.Decode] fails on every body that does not begin with
    a gzip member header: with [io.EOF] on the empty body, with
    [io.ErrUnexpectedEOF] on a body of one to nine bytes, and with
    [gzip.ErrHeader] on a body of ten bytes or more whose first three
    bytes are not 1f 8b 08. *)
Theorem GzipCodec_Decode_header (body : list byte) :
  (body = [] -> GzipCodec_Decode body = Err EOF) /\
  ((0 < length body < 10)%nat -> GzipCodec_Decode body = Err ErrUnexpectedEOF) /\
  ((10 <= length body)%nat -> take 3 body <> [x1f; x8b; x08] ->
   GzipCodec_Decode body = Err ErrHeader).
Proof.
  split; [now intros ->|]. split.
  - intros Hlen.
    destruct body as [|? [|? [|? [|? [|? [|? [|? [|? [|? [|? body]]]]]]]]]];
      simpl in Hlen; try lia; reflexivity.
  - intros Hlen Hmagic.
    destruct body as [|id1 [|id2 [|cm [|? [|? [|? [|? [|? [|? [|? body]]]]]]]]]];
      simpl in Hlen; try lia.
    unfold GzipCodec_Decode, gzip.NewReader, gzip.readHeader.
    destruct ((Z_of_byte id1 =? 31) && (Z_of_byte id2 =? 139) && (Z_of_byte cm =? 8))
      eqn:E; [|reflexivity].
    exfalso. apply Hmagic.
    apply andb_true_iff in E as [E E3]. apply andb_true_iff in E as [E1 E2].
    apply Z.eqb_eq in E1, E2, E3.
    rewrite (Z_of_byte_inj id1 x1f E1), (Z_of_byte_inj id2 x8b E2),
            (Z_of_byte_inj cm x08 E3).
    reflexivity.
Qed.

(** X13.  What [GzipCodec.Encode] returns lacks exactly the end of the
    stream: followed by the final empty stored block (01 00 00 ff ff) and
    the trailer (the CRC-32 and the length of the view's bytes, each as
    four little-endian bytes), it is a stream that [GzipCodec.Decode]
    reads back to the view. *)
Theorem GzipCodec_Encode_completed (v : ByteView) :
  exists enc,
    GzipCodec_Encode v = Ok enc /\
    GzipCodec_Decode
      (enc ++ [x01; x00; x00; xff; xff]
           ++ PutUint32 (crc32.ChecksumIEEE (ByteSlice v))
           ++ PutUint32 (Z.of_nat (length (ByteSlice v)) mod 2 ^ 32))
    = Ok v.
Proof.
  rewrite GzipCodec_Encode_flushed. eexists. split; [reflexivity|].
  destruct (flushed_bytes (ByteSlice v)) as (enc & n & B & -> & _).
  change [x01; x00; x00; xff; xff] with (flate.stored_header 0 true).
  rewrite <- !app_assoc. rewrite (GzipCodec_Decode_closed _ _ _ B).
  now destruct v.
Qed.

(** ** The cache over sequences of calls *)

Lemma cache_apply_fields (c : cache) (op : cache_op) :
  cacheBytes (cache_apply c op) = cacheBytes c /\
  ttl (cache_apply c op) = ttl c /\
  (lru (cache_apply c op) = None <-> lru c = None /\ is_add op = false).
Proof.
  destruct c as [[l|] cb t]; destruct op as [now key value|now key]; simpl;
    unfold cache_get; simpl.
  - split; [reflexivity|]. split; [reflexivity|].
    split; [discriminate | intros [H _]; discriminate H].
  - destruct (lru.Get now l key) as [[v|] l']; simpl;
      (split; [reflexivity|]; split; [reflexivity|];
       split; [discriminate | intros [H _]; discriminate H]).
  - split; [reflexivity|]. split; [reflexivity|].
    split; [discriminate | intros [_ H]; discriminate H].
  - split; [reflexivity|]. split; [reflexivity|]. split; auto.
Qed.

(** X14.  Over any sequence of [add] and [get] calls on a cache that
    starts without an LRU, the byte budget and the ttl are never changed,
    and the LRU is nil exactly as long as no [add] has been called: the
    first [add] constructs it and no later call drops it. *)
Theorem cache_run_lru (budget : Z) (d : Duration) (ops : list cache_op) :
  let c := cache_run ops (mkcache None budget d) in
  cacheBytes c = budget /\ ttl c = d /\
  (lru c = None <-> existsb is_add ops = false).
Proof.
  assert (H : forall c0,
             cacheBytes (cache_run ops c0) = cacheBytes c0 /\
             ttl (cache_run ops c0) = ttl c0 /\
             (lru (cache_run ops c0) = None <->
              lru c0 = None /\ existsb is_add ops = false)).
  { induction ops as [|op ops IH]; intros c0.
    - simpl. split; [reflexivity|]. split; [reflexivity|]. tauto.
    - change (cache_run (op :: ops) c0) with (cache_run ops (cache_apply c0 op)).
      destruct (IH (cache_apply c0 op)) as (Hb & Ht & Hl).
      destruct (cache_apply_fields c0 op) as (Hb' & Ht' & Hl').
      split; [congruence|]. split; [congruence|].
      simpl existsb. rewrite Hl, Hl', orb_false_iff. tauto. }
  intros c. destruct (H (mkcache None budget d)) as (Hb & Ht & Hl).
  split; [exact Hb|]. split; [exact Ht|]. unfold c. rewrite Hl. simpl. tauto.
Qed.

(** ** Sample runs of the handler *)

Lemma ServeHTTP_error_messages_witness :
  exists w,
    HTTPPool_ServeHTTP unit sample_GetGroup sample_Group_Get sample_pool
                       (newResponseWriter ∅) (mkRequest "GET" "/_yocache/ages/Tom")
      = Returns w /\
    error_response w "no such group: ages" 404.
Proof.
  exact (proj1 (proj2
    (ServeHTTP_error_messages unit sample_GetGroup sample_Group_Get sample_pool
       RawCodec ∅ (mkRequest "GET" "/_yocache/ages/Tom") "ages/Tom" eq_refl eq_refl))
    "ages" "Tom" eq_refl eq_refl).
Defined.

Lemma ServeHTTP_group_key_witness :
  exists w,
    HTTPPool_ServeHTTP unit sample_GetGroup echo_Group_Get sample_pool
                       (newResponseWriter ∅) (mkRequest "GET" "/_yocache/scores/a/b")
      = Returns w /\
    status w = Some 200 /\ body w = list_byte_of_string "a/b" /\
    Header w = <["Content-Type" := ["application/octet-stream"]]> ∅.
Proof.
  exact (proj2 (proj2 (proj2
    (ServeHTTP_group_key unit sample_GetGroup echo_Group_Get sample_pool
       RawCodec ∅ (mkRequest "GET" "/_yocache/scores/a/b") "scores" "a/b"
       eq_refl eq_refl eq_refl)))
    tt (mkByteView (list_byte_of_string "a/b")) (list_byte_of_string "a/b")
    eq_refl eq_refl eq_refl).
Defined.

Lemma request_path_served_witness :
  exists rawpath path,
    request_URL (mkhttpGetter ("http://localhost:8002" +:+ BasePath (opts sample_pool))
                              RawCodec_Decode) "scores" "a/b"
      = "http://localhost:8002" +:+ rawpath /\
    percent_decode rawpath = Some path /\
    path = BasePath (opts sample_pool) +:+ "scores" +:+ "/" +:+ "a/b".
Proof.
  destruct (request_path_served unit sample_GetGroup echo_Group_Get sample_pool
              RawCodec ∅ "GET" "http://localhost:8002" RawCodec_Decode "scores" "a/b"
              eq_refl eq_refl eq_refl eq_refl eq_refl)
    as (rawpath & path & H1 & H2 & H3 & _).
  exists rawpath, path. auto.
Defined.
